(** * ulauncher-vscode-recent: a shallow embedding of [main.py]

    The development follows the source file top-down: the fuzzy scorer
    [command_score], the installation resolver [Code.__init__], the recents
    loader with its one-slot TTL cache ([Code.get_recents],
    [Code.parse_entry_paths]) and the ranker
    ([CodeExtension.get_ext_result_items]).

    Modelling conventions.
    - A Python [str] is a list of characters; a character is a code point
      below U+0100 (the type [ascii] read as Latin-1).  On this range
      [str.lower] acts character by character and preserves the length.
    - Python integers used as indices are [Z]; indexing has Python's
      semantics (negative indices count from the end, anything else out of
      range raises [IndexError]).
    - Python floats (scores, timestamps) are exact rationals [Q].
    - Exceptions are values of [exn]; a computation yields an [outcome].
      Loops that the source writes as [while] and recursion over indices
      carry a fuel argument; [Timeout] is the outcome of exhausted fuel and
      is shown unreachable for the fuel the entry points supply. *)

From Stdlib Require Import ZArith QArith Qpower Ascii String List Lia Lqa.
From stdpp Require Import base option list sorting gmap strings.

(** ** Python values and exceptions *)

Module Py.

Inductive exn : Type :=
| IndexError
| KeyError
| TypeError
| AttributeError
| OSError (errno : Z).

Inductive outcome (A : Type) : Type :=
| Ok (a : A)
| Raise (e : exn)
| Timeout.
Arguments Ok {A} a.
Arguments Raise {A} e.
Arguments Timeout {A}.

#[export] Instance outcome_ret : MRet outcome := fun A a => Ok a.
#[export] Instance outcome_bind : MBind outcome := fun A B f m =>
  match m with
  | Ok a => f a
  | Raise e => Raise e
  | Timeout => Timeout
  end.

(** [str]: a sequence of code points. *)
Abbreviation str := (list ascii).

(** A literal, written as a Rocq string. *)
Definition s (lit : string) : str := list_ascii_of_string lit.

Definition len {A} (l : list A) : Z := Z.of_nat (length l).

(** [l[i]] *)
Definition getitem {A} (l : list A) (i : Z) : outcome A :=
  let j := if (i <? 0)%Z then (i + len l)%Z else i in
  if (j <? 0)%Z then Raise IndexError
  else match l !! Z.to_nat j with
       | Some x => Ok x
       | None => Raise IndexError
       end.

Definition ord (c : ascii) : N := N_of_ascii c.

(** [c.lower()] for one code point below U+0100: A-Z, and the Latin-1
    capitals U+00C0-U+00DE without the multiplication sign U+00D7. *)
Definition lower_char (c : ascii) : ascii :=
  let n := ord c in
  if ((65 <=? n) && (n <=? 90) ||
      (192 <=? n) && (n <=? 222) && negb (n =? 215))%N
  then ascii_of_N (n + 32)
  else c.

(** [x.lower()] *)
Definition lower (x : str) : str := map lower_char x.

(** [sep.join(xs)] *)
Fixpoint join (sep : str) (xs : list str) : str :=
  match xs with
  | [] => []
  | [x] => x
  | x :: xs' => x ++ sep ++ join sep xs'
  end.

Fixpoint find_at (c : ascii) (l : str) (i : Z) : Z :=
  match l with
  | [] => (-1)%Z
  | x :: l' => if decide (x = c) then i else find_at c l' (i + 1)%Z
  end.

(** [l.find(c, start)] for a one-character needle [c]: the lowest index
    at or after [start] holding [c], or -1. *)
Definition find (l : str) (c : ascii) (start : Z) : Z :=
  let st := if (start <? 0)%Z then Z.max 0 (start + len l) else start in
  find_at c (drop (Z.to_nat st) l) st.

(** [x.split(sep)] for a one-character separator: the pieces between
    the separators, never an empty list. *)
Fixpoint split (sep : ascii) (x : str) : list str :=
  match x with
  | [] => [[]]
  | c :: x' =>
      if decide (c = sep) then [] :: split sep x'
      else match split sep x' with
           | [] => [[c]]
           | piece :: pieces => (c :: piece) :: pieces
           end
  end.

(** Truthiness of a list or string: non-empty. *)
Definition truthy {A} (l : list A) : bool :=
  match l with [] => false | _ => true end.

End Py.
Import Py.

(** ** The scorer: [command_score] (main.py, lines 29-103) *)

Module Scorer.

Definition SCORE_CONTINUE_MATCH : Q := 1.
Definition SCORE_SPACE_WORD_JUMP : Q := 9 # 10.
Definition SCORE_NON_SPACE_WORD_JUMP : Q := 8 # 10.
Definition SCORE_CHARACTER_JUMP : Q := 17 # 100.
Definition PENALTY_SKIPPED : Q := 999 # 1000.
Definition PENALTY_CASE_MISMATCH : Q := 9999 # 10000.

(** The value returned when the abbreviation is used up before the
    string is (line 62). *)
Definition SCORE_PARTIAL : Q := 99 # 100.

(** [a > b] on scores. *)
Definition Qgtb (a b : Q) : bool := negb (Qle_bool a b).

(** [IS_GAP_REGEXP.match(c)]: the character class of line 43, that is
    backslash, slash, underscore, plus, dot, hash, double quote (U+0022),
    at sign, opening bracket, parenthesis and brace, and ampersand. *)
Definition IS_GAP (c : ascii) : bool :=
  bool_decide (c ∈ s "\/_+.#@[({&" ++ [ascii_of_N 34]).

(** [IS_SPACE_REGEXP.match(c)]: the class [\s-]; for a [str] pattern
    [\s] is Unicode white space, which below U+0100 is U+0009-U+000D,
    U+001C-U+0020, U+0085 and U+00A0. *)
Definition IS_SPACE (c : ascii) : bool :=
  let n := ord c in
  ((9 <=? n) && (n <=? 13) || (28 <=? n) && (n <=? 32) ||
   (n =? 133) || (n =? 160) || (n =? 45))%N.

Abbreviation memo_t := (gmap (Z * Z) Q).

Section command_score.
Variables (string abbreviation : str) (aliases : list str).

Definition lower_string : str :=
  lower (string ++ s " " ++ join (s " ") aliases).
Definition lower_abbreviation : str := lower abbreviation.

(** Lines 73-85: the factor for the context just before the match. *)
Definition jump (string_index index : Z) (temp_score : Q) : outcome Q :=
  if (index =? string_index)%Z then
    Ok (temp_score * SCORE_CONTINUE_MATCH)%Q
  else
    before ← getitem lower_string (index - 1);
    if IS_SPACE before then Ok (temp_score * SCORE_SPACE_WORD_JUMP)%Q
    else if IS_GAP before then Ok (temp_score * SCORE_NON_SPACE_WORD_JUMP)%Q
    else
      let temp_score := (temp_score * SCORE_CHARACTER_JUMP)%Q in
      if (string_index >? 0)%Z
      then Ok (temp_score * PENALTY_SKIPPED ^ (index - string_index))%Q
      else Ok temp_score.

(** Lines 87-89: the case mismatch penalty; [string[index]] is read
    from the original string, not from [lower_string]. *)
Definition case_penalty (index abbr_index : Z) (temp_score : Q)
  : outcome Q :=
  c ← getitem string index;
  a ← getitem abbreviation abbr_index;
  if decide (c ≠ a) then Ok (temp_score * PENALTY_CASE_MISMATCH)%Q
  else Ok temp_score.

(** Lines 70-96: the loop over the occurrences of [abbreviation_char]
    in [lower_string]; [rec] is the recursive call of [score]. *)
Fixpoint while_index (rec : Z → Z → memo_t → outcome (Q * memo_t))
    (string_index abbr_index : Z) (abbreviation_char : ascii)
    (k : nat) (index : Z) (high_score : Q) (memo : memo_t)
  : outcome (Q * memo_t) :=
  if (index =? -1)%Z then Ok (high_score, memo)
  else match k with
    | O => Timeout
    | S k' =>
        '(temp_score, memo) ← rec (index + 1)%Z (abbr_index + 1)%Z memo;
        temp_score ← jump string_index index temp_score;
        temp_score ← case_penalty index abbr_index temp_score;
        let high_score :=
          if Qgtb temp_score high_score then temp_score else high_score in
        let index := find lower_string abbreviation_char (index + 1) in
        while_index rec string_index abbr_index abbreviation_char
          k' index high_score memo
    end.

(** Lines 51-100: the recursive, memoised [score]. *)
Fixpoint score (fuel : nat) (string_index abbr_index : Z) (memo : memo_t)
  : outcome (Q * memo_t) :=
  match fuel with
  | O => Timeout
  | S fuel' =>
      let memo_key := (string_index, abbr_index) in
      match memo !! memo_key with
      | Some v => Ok (v, memo)
      | None =>
          if (abbr_index =? len abbreviation)%Z then
            Ok (if (string_index =? len string)%Z
                then SCORE_CONTINUE_MATCH else SCORE_PARTIAL, memo)
          else
            abbreviation_char ← getitem lower_abbreviation abbr_index;
            let high_score := 0%Q in
            let index := find lower_string abbreviation_char string_index in
            '(high_score, memo) ←
              while_index (score fuel') string_index abbr_index
                abbreviation_char (length lower_string)
                index high_score memo;
            Ok (high_score, <[memo_key := high_score]> memo)
      end
  end.
End command_score.

(** [command_score(string, abbreviation, aliases=None)] *)
Definition command_score (string abbreviation : str)
    (aliases : option (list str)) : outcome Q :=
  let aliases := default [] aliases in
  '(v, _) ← score string abbreviation aliases
              (S (length abbreviation)) 0 0 ∅;
  Ok v.

(** *** What the statements about [score] speak of *)

(** A score between 0 and 1. *)
Definition in_unit (v : Q) : Prop := (0 <= v <= 1)%Q.

(** The computation returns, or raises [IndexError]: it does not run out
    of fuel and raises nothing else. *)
Definition returns_or_index_error {A} (m : outcome A) : Prop :=
  match m with
  | Ok _ => True
  | Raise e => e = IndexError
  | Timeout => False
  end.

(** The index of the loop is -1, or a position of the searched string
    that the remaining fuel [k] covers. *)
Definition index_covered (searched : str) (k : nat) (index : Z) : Prop :=
  index = (-1)%Z ∨
  (0 ≤ index < len searched)%Z ∧ (len searched - index ≤ Z.of_nat k)%Z.

(** Every memoised score is between 0 and 1, and is 1 on the diagonal
    when the string is scored against itself. *)
Definition memo_sound (string abbreviation : str) (memo : memo_t) : Prop :=
  ∀ si ai v, memo !! (si, ai) = Some v →
    in_unit v ∧ (string = abbreviation → si = ai → v = 1%Q).

End Scorer.

Import Scorer.

(** ** The installation resolver: [Code.__init__] (lines 126-172) *)

Module Resolver.

(** A [pathlib.Path], as the string it prints to. *)
Abbreviation path := (list ascii).

(** [p / name] *)
Definition joinpath (p : path) (name : str) : path := p ++ s "/" ++ name.
Infix "/:" := joinpath (at level 40, left associativity).

(** What the resolver sees of the machine: which paths exist and where
    the home directory is. *)
Record filesystem : Type := {
  path_exists : path → bool;
  home : path;
}.

(** The fields [__init__] sets on the [Code] object. *)
Record Code : Type := {
  installed_path : option path;
  config_path : option path;
  global_state_db : option path;
  storage_json : option path;
}.

Definition path_dirs : list path := [s "/usr/bin"; s "/bin"; s "/snap/bin"].
Definition variants : list str := [s "Code"; s "Codium"].

(** Lines 127-130: every field starts as [None]. *)
Definition unresolved : Code :=
  {| installed_path := None; config_path := None;
     global_state_db := None; storage_json := None |}.

(** A [for] loop whose body may [return]: [Some] is the returned value,
    [None] means the loop ran to its end. *)
Fixpoint for_return {A B} (xs : list A) (body : A → option B) : option B :=
  match xs with
  | [] => None
  | x :: xs' =>
      match body x with
      | Some b => Some b
      | None => for_return xs' body
      end
  end.

Section init.
Variable fs : filesystem.

Definition variant_config (variant : str) : str :=
  if decide (variant = s "Codium") then s "VSCodium" else variant.

(** Lines 137-170: the body of the inner loop. *)
Definition try_variant (dir : path) (variant : str) : option Code :=
  let installed := dir /: lower variant in
  if negb (path_exists fs installed) then None
  else
    let config := home fs /: s ".config" /: variant_config variant in
    if path_exists fs installed
       && path_exists fs config
       && path_exists fs
            (config /: s "User" /: s "globalStorage" /: s "storage.json")
    then Some
      {| installed_path := Some installed;
         config_path := Some config;
         global_state_db :=
           Some (config /: s "User" /: s "globalStorage" /: s "state.vscdb");
         storage_json :=
           Some (config /: s "User" /: s "globalStorage" /: s "storage.json") |}
    else None.

(** [Code()] *)
Definition init : Code :=
  default unresolved
    (for_return path_dirs (λ dir,
       for_return variants (λ variant, try_variant dir variant))).
End init.

(** The pairs the two loops of lines 135-136 go through, in order. *)
Definition candidates : list (path * str) := list_prod path_dirs variants.

(** The store files below a configuration directory. *)
Definition store_dir (config : path) : path :=
  config /: s "User" /: s "globalStorage".

Definition config_of (fs : filesystem) (variant : str) : path :=
  home fs /: s ".config" /: variant_config variant.

(** The test of lines 150-156 for one pair: the executable, the
    configuration directory and [storage.json] exist. *)
Definition usable (fs : filesystem) (c : path * str) : bool :=
  path_exists fs (c.1 /: lower c.2)
  && path_exists fs (config_of fs c.2)
  && path_exists fs (store_dir (config_of fs c.2) /: s "storage.json").

(** The same test with the primary store [state.vscdb] in the place of
    [storage.json]. *)
Definition usable_primary (fs : filesystem) (c : path * str) : bool :=
  path_exists fs (c.1 /: lower c.2)
  && path_exists fs (config_of fs c.2)
  && path_exists fs (store_dir (config_of fs c.2) /: s "state.vscdb").

(** The fields assigned at lines 162-169 for one pair. *)
Definition resolved (fs : filesystem) (c : path * str) : Code :=
  {| installed_path := Some (c.1 /: lower c.2);
     config_path := Some (config_of fs c.2);
     global_state_db :=
       Some (store_dir (config_of fs c.2) /: s "state.vscdb");
     storage_json :=
       Some (store_dir (config_of fs c.2) /: s "storage.json") |}.

(** [is_installed]: a [Path] is always truthy, [None] is not. *)
Definition is_installed (self : Code) : bool :=
  bool_decide (is_Some (installed_path self)).

End Resolver.
Import Resolver.

(** ** The loader and its cache (lines 177-277) *)

Module Loader.

(** One element of the [entries] array of the store, with the keys the
    code looks at; the values are typed as the store writes them. *)
Record raw_entry : Type := {
  folderUri : option str;
  fileUri : option str;
  workspace : option (gmap str str);
  raw_label : option str;
}.

(** The dictionary built at lines 264-270. *)
Record recent : Type := {
  uri : str;
  label : str;
  icon : str;
  option_ : str;
  type_ : str;
}.

(** Lines 243-271: one iteration of the loop; [None] is [continue]. *)
Definition parse_entry (path : raw_entry) : outcome (option recent) :=
  shape ←
    match folderUri path with
    | Some u => Ok (Some (u, s "icon", s "--folder-uri", s "folder"))
    | None =>
        match fileUri path with
        | Some u => Ok (Some (u, s "file", s "--file-uri", s "file"))
        | None =>
            match workspace path with
            | Some ws =>
                match ws !! s "configPath" with
                | Some u =>
                    Ok (Some (u, s "workspace", s "--file-uri", s "workspace"))
                | None => Raise KeyError
                end
            | None => Ok None
            end
        end
    end;
  match shape with
  | None => Ok None
  | Some (u, ic, opt, ty) =>
      lbl ← match raw_label path with
            | Some l => Ok l
            | None => getitem (split "/" u) (-1)
            end;
      Ok (Some {| uri := u; label := lbl; icon := ic;
                  option_ := opt; type_ := ty |})
  end.

(** Lines 240-271: the loop over [entries]. *)
Fixpoint parse_entries (entries : list raw_entry) (recents : list recent)
  : outcome (list recent) :=
  match entries with
  | [] => Ok recents
  | path :: entries' =>
      r ← parse_entry path;
      parse_entries entries'
        (match r with Some x => recents ++ [x] | None => recents end)
  end.

(** Line 276: the comprehension; [x in None] raises [TypeError], and is
    evaluated once there is a first element. *)
Definition type_filter (recents : list recent)
    (include_types : option (list str)) : outcome (list recent) :=
  match include_types with
  | Some tys => Ok (filter (λ r, type_ r ∈ tys) recents)
  | None => match recents with [] => Ok [] | _ => Raise TypeError end
  end.

(** [Code.parse_entry_paths(entries, include_types)] *)
Definition parse_entry_paths (entries : list raw_entry)
    (include_types : option (list str)) : outcome (list recent) :=
  recents ← parse_entries entries [];
  type_filter recents include_types.

(** Reads of the two stores, in the order they happen. *)
Inductive io_event : Type :=
| ReadGlobalState (db : path)
| ReadStorageJson (file : path).

(** What the loader sees of the machine: the file system, and what
    lines 214-221 and lines 232-233 produce for a given file, the
    [entries] array or the exception of [sqlite3] or [json]. *)
Record world : Type := {
  fs : filesystem;
  read_global_state : path → outcome (list raw_entry);
  read_storage_json : path → outcome (list raw_entry);
}.

(** The mutable state: the class attributes [_cached_recents] and
    [_cache_timestamp], the instance attribute [include_types], and the
    reads done so far (oldest first). *)
Record state : Type := {
  cached_recents : option (list recent);
  cache_timestamp : Q;
  include_types : option (list str);
  trace : list io_event;
}.

Definition _cache_duration : Q := 60.

(** Lines 122-123 and 131. *)
Definition initial : state :=
  {| cached_recents := None; cache_timestamp := 0;
     include_types := None; trace := [] |}.

Definition record_io (e : io_event) (st : state) : state :=
  {| cached_recents := cached_recents st;
     cache_timestamp := cache_timestamp st;
     include_types := include_types st;
     trace := trace st ++ [e] |}.

(** Lines 207-208. *)
Definition update_cache (recents : list recent) (now : Q) (st : state)
  : state :=
  {| cached_recents := Some recents;
     cache_timestamp := now;
     include_types := include_types st;
     trace := trace st |}.

(** Lines 397 and 408: [include_types = value.split(",")]. *)
Definition set_include_types (value : str) (st : state) : state :=
  {| cached_recents := cached_recents st;
     cache_timestamp := cache_timestamp st;
     include_types := Some (split "," value);
     trace := trace st |}.

(** [a < b] on timestamps. *)
Definition Qltb (a b : Q) : bool := negb (Qle_bool b a).

(** Lines 180-185: the cached list, when the test of line 181 lets it
    through: it is truthy and younger than [_cache_duration]. *)
Definition cache_lookup (current_time : Q) (st : state)
  : option (list recent) :=
  match cached_recents st with
  | Some cached =>
      if truthy cached
         && Qltb (current_time - cache_timestamp st) _cache_duration
      then Some cached
      else None
  | None => None
  end.

Section methods.
Variables (w : world) (self : Code).

(** [self.p.exists()], where [self.p] may still be [None]. *)
Definition attr_exists (p : option path) : outcome bool :=
  match p with
  | Some f => Ok (path_exists (fs w) f)
  | None => Raise AttributeError
  end.

(** Lines 212-224. *)
Definition get_recents_global_state (st : state)
  : outcome (list recent) * state :=
  match global_state_db self with
  | None => (Raise TypeError, st)
  | Some db =>
      (entries ← read_global_state w db;
       parse_entry_paths entries (include_types st),
       record_io (ReadGlobalState db) st)
  end.

(** Lines 226-236. *)
Definition get_recents_legacy (st : state)
  : outcome (list recent) * state :=
  match storage_json self with
  | None => (Raise AttributeError, st)
  | Some file =>
      (entries ← read_storage_json w file;
       parse_entry_paths entries (include_types st),
       record_io (ReadStorageJson file) st)
  end.

(** Lines 188-200: the primary store, with its [try]/[except]. *)
Definition load_primary (st : state) : outcome (list recent) * state :=
  match attr_exists (global_state_db self) with
  | Ok true =>
      match get_recents_global_state st with
      | (Raise e, st') =>
          match attr_exists (storage_json self) with
          | Ok false => (Raise e, st')
          | Ok true => (Ok [], st')
          | Raise e' => (Raise e', st')
          | Timeout => (Timeout, st')
          end
      | returned => returned
      end
  | Ok false => (Ok [], st)
  | Raise e => (Raise e, st)
  | Timeout => (Timeout, st)
  end.

(** Lines 202-204: the legacy store, read when nothing came out of
    the primary one. *)
Definition load_legacy (recents : list recent) (st : state)
  : outcome (list recent) * state :=
  if truthy recents then (Ok recents, st)
  else
    match attr_exists (storage_json self) with
    | Ok true => get_recents_legacy st
    | Ok false => (Ok recents, st)
    | Raise e => (Raise e, st)
    | Timeout => (Timeout, st)
    end.

(** Lines 188-210: the path taken when the cache is not used.
    [load_time] is the clock reading of line 208. *)
Definition reload (load_time : Q) (st : state)
  : outcome (list recent) * state :=
  match load_primary st with
  | (Ok recents, st) =>
      match load_legacy recents st with
      | (Ok recents, st) => (Ok recents, update_cache recents load_time st)
      | failed => failed
      end
  | failed => failed
  end.

(** [Code.get_recents]; [current_time] is the clock reading of
    line 179. *)
Definition get_recents (current_time load_time : Q) (st : state)
  : outcome (list recent) * state :=
  match cache_lookup current_time st with
  | Some cached => (Ok cached, st)
  | None => reload load_time st
  end.
End methods.

End Loader.
Import Loader.

(** ** The ranker: [CodeExtension.get_ext_result_items] (lines 321-363) *)

Module Ranker.

(** The dictionary appended to [data] at line 344. *)
Record scored : Type := {
  recent_ : recent;
  score_ : Q;
}.

Definition PREFER_BOOST : Q := 102 # 100.
Definition THRESHOLD : Q := 1 # 10.
Definition MAX_ITEMS : nat := 15.

(** [max(a, b)]: the first of the largest. *)
Definition max (a b : Q) : Q := if Qgtb b a then b else a.

(** Line 338: [prefer_type and recent["type"] == prefer_type]. *)
Definition preferred (prefer_type : option str) (r : recent) : bool :=
  match prefer_type with
  | Some p => truthy p && bool_decide (type_ r = p)
  | None => false
  end.

(** Lines 333-344: one iteration; [None] when the entry is dropped. *)
Definition score_recent (prefer_type : option str) (query : str)
    (r : recent) : outcome (option scored) :=
  label_score ← command_score (label r) query None;
  uri_score ← command_score (uri r) query None;
  let label_score :=
    if preferred prefer_type r then (label_score * PREFER_BOOST)%Q
    else label_score in
  if Qgtb label_score THRESHOLD || Qgtb uri_score THRESHOLD
  then Ok (Some {| recent_ := r; score_ := max label_score uri_score |})
  else Ok None.

(** Lines 332-344: the loop filling [data]. *)
Fixpoint score_recents (prefer_type : option str) (query : str)
    (recents : list recent) (data : list scored) : outcome (list scored) :=
  match recents with
  | [] => Ok data
  | r :: recents' =>
      x ← score_recent prefer_type query r;
      score_recents prefer_type query recents'
        (match x with Some d => data ++ [d] | None => data end)
  end.

(** [sorted(data, key=score, reverse=True)]: Python's sort is stable,
    also when reversed; an insertion sort that puts an element before
    the first one that is not larger. *)
Fixpoint insort (x : scored) (l : list scored) : list scored :=
  match l with
  | [] => [x]
  | y :: l' =>
      if Qle_bool (score_ y) (score_ x) then x :: y :: l'
      else y :: insort x l'
  end.

Definition sorted_reverse (data : list scored) : list scored :=
  foldr insort [] data.

(** The order of the result: no later element has a larger score. *)
Definition descending (a b : scored) : Prop := (score_ b <= score_ a)%Q.

#[export] Instance Qeq_decision (a b : Q) : Decision (a == b)%Q :=
  Qeq_dec a b.

(** The elements of [l] whose score equals [v], in the order of [l]. *)
Definition with_score (v : Q) (l : list scored) : list scored :=
  filter (λ d, (score_ d == v)%Q) l.

(** Lines 325-349: scoring, sorting and the slice [data[:15]]; the items
    of lines 349-361 are built one per element, in this order. *)
Definition rank (prefer_type : option str) (query : str)
    (recents : list recent) : outcome (list scored) :=
  data ← score_recents prefer_type query recents [];
  Ok (take MAX_ITEMS (sorted_reverse data)).

(** [get_ext_result_items(query)], up to the rendering of the items. *)
Definition get_ext_result_items (w : world) (code : Code)
    (prefer_type : option str) (query : str)
    (current_time load_time : Q) (st : state)
  : outcome (list scored) * state :=
  let query := if truthy query then lower query else s "" in
  match get_recents w code current_time load_time st with
  | (Ok recents, st) => (rank prefer_type query recents, st)
  | (Raise e, st) => (Raise e, st)
  | (Timeout, st) => (Timeout, st)
  end.

End Ranker.
Import Ranker.

(** ** Concrete machines and stores, for the instances below *)

Module Examples.

(** [{"folderUri": "file:///home/u/proj", "label": "proj"}] *)
Definition folder_raw : raw_entry :=
  {| folderUri := Some (s "file:///home/u/proj"); fileUri := None;
     workspace := None; raw_label := Some (s "proj") |}.

(** [{"fileUri": "file:///home/u/notes.txt"}] *)
Definition file_raw : raw_entry :=
  {| folderUri := None; fileUri := Some (s "file:///home/u/notes.txt");
     workspace := None; raw_label := None |}.

(** [{"folderUri": "file:///home/u/proj/"}]: a folder written with a
    trailing slash and no label. *)
Definition slash_raw : raw_entry :=
  {| folderUri := Some (s "file:///home/u/proj/"); fileUri := None;
     workspace := None; raw_label := None |}.

Definition folder_recent : recent :=
  {| uri := s "file:///home/u/proj"; label := s "proj"; icon := s "icon";
     option_ := s "--folder-uri"; type_ := s "folder" |}.

Definition file_recent : recent :=
  {| uri := s "file:///home/u/notes.txt"; label := s "notes.txt";
     icon := s "file"; option_ := s "--file-uri"; type_ := s "file" |}.

Definition exe : path := s "/usr/bin/code".
Definition config : path := s "/home/u/.config/Code".
Definition db : path :=
  s "/home/u/.config/Code/User/globalStorage/state.vscdb".
Definition legacy : path :=
  s "/home/u/.config/Code/User/globalStorage/storage.json".

Definition fs_of (files : list path) : filesystem :=
  {| path_exists := λ p, bool_decide (p ∈ files); home := s "/home/u" |}.

(** A current installation: both stores are there. *)
Definition fs_both : filesystem := fs_of [exe; config; db; legacy].
(** The primary store without the legacy file. *)
Definition fs_primary_only : filesystem := fs_of [exe; config; db].

(** The legacy file without the primary store. *)
Definition fs_legacy_only : filesystem := fs_of [exe; config; legacy].

(** The primary store holds the folder and the file. *)
Definition w_both : world :=
  {| fs := fs_both;
     read_global_state := λ _, Ok [folder_raw; file_raw];
     read_storage_json := λ _, Ok [] |}.

(** The primary store cannot be read; the legacy file holds the file. *)
Definition w_broken_with_legacy : world :=
  {| fs := fs_both;
     read_global_state := λ _, Raise (OSError 5);
     read_storage_json := λ _, Ok [file_raw] |}.

(** The primary store cannot be read and the legacy file is gone. *)
Definition w_broken : world :=
  {| fs := fs_primary_only;
     read_global_state := λ _, Raise (OSError 5);
     read_storage_json := λ _, Ok [] |}.

(** The [Code] object made at start-up, with both stores present. *)
Definition code : Code := init fs_both.

(** A cache filled at time 100 with the folder. *)
Definition st_loaded : state :=
  {| cached_recents := Some [folder_recent]; cache_timestamp := 100;
     include_types := Some [s "folder"; s "file"]; trace := [] |}.

(** The two entries ranked for the query [o], which both labels and
    both locations contain. *)
Definition ranked : list scored :=
  Eval vm_compute in
    match rank None (s "o") [folder_recent; file_recent] with
    | Ok out => out
    | _ => []
    end.

End Examples.

(** ** Launching the editor: [Code.open_vscode] (lines 279-295) *)

Module Launcher.

(** [c.isspace()] for a code point below U+0100. *)
Definition isspace (c : ascii) : bool :=
  let n := ord c in
  ((9 <=? n) && (n <=? 13) || (28 <=? n) && (n <=? 32) ||
   (n =? 133) || (n =? 160))%N.

(** [x.lstrip()], [x.rstrip()] and [x.strip()]. *)
Fixpoint lstrip (x : str) : str :=
  match x with
  | c :: x' => if isspace c then lstrip x' else x
  | [] => []
  end.

Definition rstrip (x : str) : str := reverse (lstrip (reverse x)).

Definition strip (x : str) : str := rstrip (lstrip x).

(** Lines 288-290: one name of the list is taken out of the copy. *)
Definition exclude (current_env : gmap str str) (env_var : str)
  : gmap str str :=
  let env_to_exclude := strip env_var in
  if decide (is_Some (current_env !! env_to_exclude))
  then delete env_to_exclude current_env
  else current_env.

(** Lines 283-290: the environment given to the process; [environ] is
    [os.environ]. *)
Definition child_env (environ : gmap str str)
    (excluded_env_vars : option str) : gmap str str :=
  match excluded_env_vars with
  | Some names =>
      if truthy names then foldl exclude environ (split "," names)
      else environ
  | None => environ
  end.

(** What [subprocess.run] is called with. *)
Record process : Type := {
  args : list str;
  env : gmap str str;
}.

(** [Code.open_vscode(recent, excluded_env_vars)]: the process started,
    or [None] when the method returns at line 281. *)
Definition open_vscode (self : Code) (recent : recent)
    (excluded_env_vars : option str) (environ : gmap str str)
  : option process :=
  if negb (is_installed self) then None
  else
    exe ← installed_path self;
    Some {| args := [exe; option_ recent; uri recent];
            env := child_env environ excluded_env_vars |}.

End Launcher.
Import Launcher.

(** ** Notions used to state the further properties *)

Module Notions.

(** The cache and the configured types of a state, without its trace. *)
Definition settings (st : state)
  : option (list recent) * Q * option (list str) :=
  (cached_recents st, cache_timestamp st, include_types st).

(** What is left of the needle from index [ai] on is a subsequence of
    what is left of the hay from index [si] on. *)
Definition reach (needle hay : str) (si ai : Z) : Prop :=
  drop (Z.to_nat ai) needle `sublist_of` drop (Z.to_nat si) hay.

(** Every memoised score is non-negative, and positive exactly when the
    rest of the lowered query is a subsequence of the rest of the lowered
    string. *)
Definition memo_positive (string abbreviation : str) (memo : memo_t) : Prop :=
  ∀ si ai v, memo !! (si, ai) = Some v → (0 ≤ si)%Z → (0 ≤ ai)%Z →
    (0 <= v)%Q ∧
    (0 < v ↔ reach (lower abbreviation) (lower string) si ai)%Q.


End Notions.
Import Notions.

(** * Properties *)

(** ** Indexing and searching *)

Section py_facts.
Context {A : Type}.
Implicit Types (l : list A) (i : Z).

Lemma getitem_nonneg l i :
  (0 ≤ i)%Z →
  getitem l i = match l !! Z.to_nat i with
                | Some x => Ok x
                | None => Raise IndexError
                end.
Proof.
  intros Hi. unfold getitem.
  destruct (Z.ltb_spec i 0) as [?|_]; [lia|].
  destruct (Z.ltb_spec i 0) as [?|_]; [lia|]. reflexivity.
Qed.

Lemma getitem_Ok l i x :
  (0 ≤ i)%Z → l !! Z.to_nat i = Some x → getitem l i = Ok x.
Proof. intros Hi Hx. rewrite getitem_nonneg, Hx; done. Qed.

Lemma getitem_in_range l i :
  (0 ≤ i < len l)%Z → ∃ x, getitem l i = Ok x ∧ l !! Z.to_nat i = Some x.
Proof.
  intros [Hi Hlt]. unfold len in Hlt.
  destruct (lookup_lt_is_Some_2 l (Z.to_nat i)) as [x Hx]; [lia|].
  exists x. split; [by apply getitem_Ok | done].
Qed.

Lemma getitem_past_end l i : (len l ≤ i)%Z → getitem l i = Raise IndexError.
Proof.
  intros Hi. unfold len in Hi. rewrite getitem_nonneg by lia.
  rewrite lookup_ge_None_2; [done | lia].
Qed.
End py_facts.

Lemma find_at_spec (c : ascii) (l : str) (i0 : Z) :
  (find_at c l i0 = -1 ∧ c ∉ l)%Z ∨
  (∃ n : nat, find_at c l i0 = (i0 + Z.of_nat n)%Z ∧ l !! n = Some c ∧
              ∀ m : nat, (m < n)%nat → l !! m ≠ Some c).
Proof.
  revert i0. induction l as [|x l IH]; intros i0; simpl.
  - left. split; [done | apply not_elem_of_nil].
  - destruct (decide (x = c)) as [->|Hne].
    + right. exists 0%nat. split; [lia|]. split; [done|]. intros m Hm; lia.
    + destruct (IH (i0 + 1)%Z) as [[-> Hnot]|(n & -> & Hn & Hmin)].
      * left. split; [done|]. rewrite not_elem_of_cons. auto.
      * right. exists (S n). split; [lia|]. split; [done|].
        intros [|m] Hm; simpl; [congruence | apply Hmin; lia].
Qed.

(** [find] returns -1 when the character does not occur at or after
    [start], and otherwise the first index at or after [start] holding it. *)
Lemma find_spec (l : str) (c : ascii) (start : Z) :
  (0 ≤ start)%Z →
  (find l c start = -1 ∧
     ∀ j, (start ≤ j)%Z → l !! Z.to_nat j ≠ Some c)%Z ∨
  (start ≤ find l c start < len l ∧
     l !! Z.to_nat (find l c start) = Some c ∧
     ∀ j, (start ≤ j < find l c start)%Z → l !! Z.to_nat j ≠ Some c)%Z.
Proof.
  intros Hst. unfold find.
  destruct (Z.ltb_spec start 0) as [?|_]; [lia|].
  destruct (find_at_spec c (drop (Z.to_nat start) l) start)
    as [[-> Hnot]|(n & -> & Hn & Hmin)].
  - left. split; [done|]. intros j Hj Hc. apply Hnot.
    apply list_elem_of_lookup. exists (Z.to_nat j - Z.to_nat start)%nat.
    rewrite lookup_drop. rewrite <- Hc. f_equal. lia.
  - right. rewrite lookup_drop in Hn.
    assert (Z.to_nat (start + Z.of_nat n) = (Z.to_nat start + n)%nat)
      as Hidx by lia.
    split; [|split].
    + pose proof (lookup_lt_Some _ _ _ Hn). unfold len. lia.
    + by rewrite Hidx.
    + intros j Hj Hc. apply (Hmin (Z.to_nat j - Z.to_nat start)%nat); [lia|].
      rewrite lookup_drop, <- Hc. f_equal. lia.
Qed.

(** If [c] sits at index [p], a search from at or before [p] finds it at
    or before [p]. *)
Lemma find_before (l : str) (c : ascii) (start p : Z) :
  (0 ≤ start ≤ p)%Z → l !! Z.to_nat p = Some c →
  (start ≤ find l c start ≤ p)%Z ∧ l !! Z.to_nat (find l c start) = Some c.
Proof.
  intros Hp Hc.
  destruct (find_spec l c start) as [[_ Hnone]|(Hr & Hf & Hmin)]; [lia| |].
  - exfalso. apply (Hnone p); [lia | done].
  - split; [|done]. split; [lia|].
    destruct (Z.le_gt_cases (find l c start) p) as [|Hgt]; [done|].
    exfalso. apply (Hmin p); [lia | done].
Qed.

(** ** The scorer *)

Lemma lower_char_space (c : ascii) : lower_char c = " "%char ↔ c = " "%char.
Proof.
  split; [|by intros ->].
  destruct c as [[] [] [] [] [] [] [] []]; vm_compute; congruence.
Qed.

Section scorer_facts.
Variables (string abbreviation : str) (aliases : list str).

#[local] Abbreviation lower_string := (lower_string string aliases).

Lemma lower_string_eq :
  lower_string = lower string ++ " "%char :: lower (join (s " ") aliases).
Proof. unfold Scorer.lower_string, lower. by rewrite map_app. Qed.

Lemma len_lower (x : str) : len (lower x) = len x.
Proof. unfold len, lower. by rewrite length_map. Qed.

Lemma len_lower_string : (len string < len lower_string)%Z.
Proof.
  rewrite lower_string_eq. unfold len, lower.
  rewrite length_app, length_map. simpl. lia.
Qed.

(** The separator appended at line 47 sits right after the string. *)
Lemma lower_string_separator :
  lower_string !! Z.to_nat (len string) = Some " "%char.
Proof.
  rewrite lower_string_eq. unfold len. rewrite Nat2Z.id.
  rewrite lookup_app_r; unfold lower; rewrite length_map; [|lia].
  by rewrite Nat.sub_diag.
Qed.

(** Inside the string, [lower_string] is the lowered string. *)
Lemma lower_string_inside (i : nat) (c : ascii) :
  string !! i = Some c → lower_string !! i = Some (lower_char c).
Proof.
  intros Hc. rewrite lower_string_eq.
  rewrite lookup_app_l.
  - unfold lower. by rewrite list_lookup_fmap, Hc.
  - unfold lower. rewrite length_map. by eapply lookup_lt_Some.
Qed.

(** The context factor never raises for a match found by the loop. *)
Lemma jump_Ok (string_index index : Z) (t : Q) :
  (0 ≤ string_index ≤ index)%Z → (index < len lower_string)%Z →
  ∃ t', jump string aliases string_index index t = Ok t'.
Proof.
  intros Hsi Hlt. unfold jump.
  destruct (Z.eqb_spec index string_index) as [|Hne]; [by eexists|].
  destruct (getitem_in_range lower_string (index - 1)) as (b & -> & _);
    [lia|]. simpl.
  destruct (IS_SPACE b); [by eexists|].
  destruct (IS_GAP b); [by eexists|].
  destruct (string_index >? 0)%Z; by eexists.
Qed.
End scorer_facts.

(** Unfolding equations for the loop and for [score]. *)
Lemma while_index_done string abbreviation aliases rec si ai c k high memo :
  while_index string abbreviation aliases rec si ai c k (-1) high memo
  = Ok (high, memo).
Proof. by destruct k. Qed.

Lemma while_index_step string abbreviation aliases rec si ai c k index high
    memo :
  index ≠ (-1)%Z →
  while_index string abbreviation aliases rec si ai c (S k) index high memo
  = '(temp_score, memo) ← rec (index + 1)%Z (ai + 1)%Z memo;
    temp_score ← jump string aliases si index temp_score;
    temp_score ← case_penalty string abbreviation index ai temp_score;
    while_index string abbreviation aliases rec si ai c k
      (find (lower_string string aliases) c (index + 1))
      (if Qgtb temp_score high then temp_score else high) memo.
Proof.
  intros Hne. simpl. by destruct (Z.eqb_spec index (-1)) as [|_].
Qed.

Lemma score_base string abbreviation aliases fuel si :
  score string abbreviation aliases (S fuel) si (len abbreviation) ∅
  = Ok (if (si =? len string)%Z then SCORE_CONTINUE_MATCH else SCORE_PARTIAL,
        ∅).
Proof. simpl. by rewrite lookup_empty, Z.eqb_refl. Qed.

Lemma score_step string abbreviation aliases fuel si ai memo :
  memo !! (si, ai) = None → ai ≠ len abbreviation →
  score string abbreviation aliases (S fuel) si ai memo
  = abbreviation_char ← getitem (lower_abbreviation abbreviation) ai;
    '(high_score, memo) ←
      while_index string abbreviation aliases
        (score string abbreviation aliases fuel) si ai abbreviation_char
        (length (lower_string string aliases))
        (find (lower_string string aliases) abbreviation_char si) 0 memo;
    Ok (high_score, <[(si, ai) := high_score]> memo).
Proof.
  intros Hmemo Hne. simpl. rewrite Hmemo.
  by destruct (Z.eqb_spec ai (len abbreviation)).
Qed.

(** *** Termination: [score] returns or raises [IndexError] *)

Lemma getitem_returns_or_index_error {A} (l : list A) (i : Z) :
  returns_or_index_error (getitem l i).
Proof.
  unfold getitem. destruct (_ <? 0)%Z; [done|]. by destruct (l !! _).
Qed.

Lemma bind_returns_or_index_error {A B} (m : outcome A) (f : A → outcome B) :
  returns_or_index_error m → (∀ a, returns_or_index_error (f a)) →
  returns_or_index_error (m ≫= f).
Proof. destruct m; simpl; auto. Qed.

Section termination.
Variables (string abbreviation : str) (aliases : list str).

#[local] Abbreviation lower_string := (lower_string string aliases).

Lemma jump_returns_or_index_error (si index : Z) (t : Q) :
  returns_or_index_error (jump string aliases si index t).
Proof.
  unfold jump. destruct (_ =? _)%Z; [done|].
  apply bind_returns_or_index_error;
    [apply getitem_returns_or_index_error|].
  intros b. destruct (IS_SPACE b), (IS_GAP b), (si >? 0)%Z; done.
Qed.

Lemma case_penalty_returns_or_index_error (index ai : Z) (t : Q) :
  returns_or_index_error (case_penalty string abbreviation index ai t).
Proof.
  unfold case_penalty.
  apply bind_returns_or_index_error;
    [apply getitem_returns_or_index_error|]. intros c.
  apply bind_returns_or_index_error;
    [apply getitem_returns_or_index_error|]. intros a.
  by destruct (decide (c ≠ a)).
Qed.

Lemma find_covered (c : ascii) (k : nat) (index : Z) :
  (0 ≤ index)%Z → (len lower_string - index ≤ Z.of_nat (S k))%Z →
  index_covered lower_string k (find lower_string c (index + 1)).
Proof.
  intros Hidx Hk.
  destruct (find_spec lower_string c (index + 1)) as [[-> _]|(Hr & _)];
    [lia | by left |]. right. lia.
Qed.

Lemma find_covered_start (c : ascii) (si : Z) :
  (0 ≤ si)%Z →
  index_covered lower_string (length lower_string) (find lower_string c si).
Proof.
  intros Hsi.
  destruct (find_spec lower_string c si) as [[-> _]|(Hr & _)];
    [lia | by left |]. right. unfold len in *. lia.
Qed.

Lemma while_index_returns_or_index_error rec si ai c k index high memo :
  (∀ i m, (0 ≤ i)%Z → returns_or_index_error (rec i (ai + 1)%Z m)) →
  index_covered lower_string k index →
  returns_or_index_error
    (while_index string abbreviation aliases rec si ai c k index high memo).
Proof.
  intros Hrec. revert index high memo.
  induction k as [|k IH]; intros index high memo [->|[Hidx Hk]].
  - done.
  - lia.
  - by rewrite while_index_done.
  - rewrite while_index_step by lia.
    apply bind_returns_or_index_error; [apply Hrec; lia|]. intros [t m].
    apply bind_returns_or_index_error;
      [apply jump_returns_or_index_error|]. intros t1.
    apply bind_returns_or_index_error;
      [apply case_penalty_returns_or_index_error|]. intros t2.
    apply IH. apply find_covered; lia.
Qed.

Lemma score_returns_or_index_error (fuel : nat) (si ai : Z) (memo : memo_t) :
  (0 ≤ si)%Z → (ai ≤ len abbreviation)%Z →
  (len abbreviation - ai < Z.of_nat fuel)%Z →
  returns_or_index_error (score string abbreviation aliases fuel si ai memo).
Proof.
  revert si ai memo. induction fuel as [|fuel IH]; intros si ai memo Hsi Hai Hf.
  - lia.
  - destruct (memo !! (si, ai)) as [v|] eqn:Hmemo.
    { simpl. by rewrite Hmemo. }
    destruct (Z.eq_dec ai (len abbreviation)) as [->|Hne].
    { simpl. by rewrite Hmemo, Z.eqb_refl. }
    rewrite score_step by done.
    apply bind_returns_or_index_error;
      [apply getitem_returns_or_index_error|]. intros c.
    apply bind_returns_or_index_error; [|by intros []].
    apply while_index_returns_or_index_error.
    + intros i m Hi. apply IH; lia.
    + by apply find_covered_start.
Qed.

(** When the character looked for is the space and the loop stands on a
    space at or before [len(string)], the loop ends in [IndexError]: it
    walks the spaces of the string and reaches the separator appended at
    line 47, where line 88 indexes the original string out of range. *)
Lemma while_index_separator rec si ai k index high memo :
  (∀ i m, (0 ≤ i)%Z → returns_or_index_error (rec i (ai + 1)%Z m)) →
  (0 ≤ ai < len abbreviation)%Z →
  (0 ≤ si ≤ index)%Z → (index ≤ len string)%Z →
  lower_string !! Z.to_nat index = Some " "%char →
  (len lower_string - index ≤ Z.of_nat k)%Z →
  while_index string abbreviation aliases rec si ai " "%char k index high memo
  = Raise IndexError.
Proof.
  intros Hrec Hai. revert index high memo.
  induction k as [|k IH]; intros index high memo Hsi Hidx Hsp Hk;
    pose proof (len_lower_string string aliases) as Hlen; [lia|].
  rewrite while_index_step by lia.
  assert (0 ≤ index + 1)%Z as Hpos by lia.
  pose proof (Hrec (index + 1)%Z memo Hpos) as Hr.
  destruct (rec (index + 1)%Z (ai + 1)%Z memo) as [[t m]|e|];
    simpl in Hr; cbn [mbind outcome_bind]; [|by rewrite Hr|done].
  destruct (jump_Ok string aliases si index t) as [t1 ->]; [lia | lia |].
  cbn [mbind outcome_bind]. unfold case_penalty.
  destruct (Z.eq_dec index (len string)) as [->|Hne].
  { by rewrite (getitem_past_end string (len string)) by lia. }
  destruct (getitem_in_range string index) as (c & -> & _); [lia|].
  destruct (getitem_in_range abbreviation ai) as (a & -> & _); [lia|].
  cbn [mbind outcome_bind].
  destruct (find_before lower_string " "%char (index + 1) (len string))
    as [Hnext Hfound]; [lia | apply lower_string_separator |].
  destruct (decide (c ≠ a)); cbn [mbind outcome_bind];
    apply IH; (lia || done).
Qed.
End termination.

(** Whatever the arguments, [command_score] returns a score or raises
    [IndexError]; the fuel given to [score] and to its loop is enough. *)
Lemma command_score_returns_or_index_error (string abbreviation : str)
    (aliases : option (list str)) :
  returns_or_index_error (command_score string abbreviation aliases).
Proof.
  unfold command_score. apply bind_returns_or_index_error; [|by intros []].
  apply score_returns_or_index_error; unfold len; lia.
Qed.

(** C10. For every candidate string (and every list of aliases), scoring
    it against the query made of one space raises [IndexError]: the space
    always matches the separator that line 47 appends at index
    [len(string)], and line 88 then reads [string[len(string)]]. *)
Theorem command_score_space_query_raises (string : str)
    (aliases : option (list str)) :
  command_score string (s " ") aliases = Raise IndexError.
Proof.
  unfold command_score.
  set (al := default [] aliases).
  change (S (length (s " "))) with 2%nat.
  rewrite score_step; [|apply lookup_empty|done].
  change (getitem (lower_abbreviation (s " ")) 0) with (Ok " "%char).
  cbn [mbind outcome_bind].
  pose proof (len_lower_string string al) as Hlen.
  destruct (find_before (lower_string string al) " "%char 0 (len string))
    as [Hr Hf]; [unfold len; lia | apply lower_string_separator |].
  rewrite while_index_separator; [done | | done | lia | lia | done | ].
  - intros i m Hi. apply score_returns_or_index_error; [lia|done..].
  - unfold len in *. lia.
Qed.

Lemma Qgtb_true (a b : Q) : Qgtb a b = true ↔ (b < a)%Q.
Proof.
  unfold Qgtb. rewrite negb_true_iff, <- not_true_iff_false, Qle_bool_iff.
  split; [apply Qnot_le_lt | apply Qlt_not_le].
Qed.

(** *** Scores between 0 and 1, and the score of a string against itself *)

Lemma in_unit_mult (a b : Q) : in_unit a → in_unit b → in_unit (a * b).
Proof. unfold in_unit. intros [? ?] [? ?]. split; nra. Qed.

Lemma in_unit_power (q : Q) (n : Z) :
  in_unit q → (0 ≤ n)%Z → in_unit (q ^ n).
Proof.
  intros Hq Hn. pose proof Hq as [Hq0 Hq1].
  split; [by apply Qpower_0_le|].
  destruct n as [|p|p]; [done| |lia]. clear Hn.
  induction p as [|p IH] using Pos.peano_ind.
  - by rewrite Qpower_1_r.
  - rewrite <- Pos.add_1_r, Pos2Z.inj_add, Qpower_plus' by done.
    rewrite Qpower_1_r.
    pose proof (Qpower_0_le q (Z.pos p) Hq0). nra.
Qed.

Lemma memo_sound_empty (string abbreviation : str) :
  memo_sound string abbreviation ∅.
Proof. intros si ai v Hv. by rewrite lookup_empty in Hv. Qed.

Lemma memo_sound_insert (string abbreviation : str) (memo : memo_t)
    (si ai : Z) (v : Q) :
  memo_sound string abbreviation memo → in_unit v →
  (string = abbreviation → si = ai → v = 1%Q) →
  memo_sound string abbreviation (<[(si, ai) := v]> memo).
Proof.
  intros Hmemo Hv Hdiag si' ai' v'.
  destruct (decide ((si, ai) = (si', ai'))) as [[= <- <-]|Hne].
  - rewrite lookup_insert_eq. by intros [= <-].
  - rewrite lookup_insert_ne by done. apply Hmemo.
Qed.

Section bounded.
Variables (string abbreviation : str).
Hypothesis abbreviation_without_space : " "%char ∉ abbreviation.

#[local] Abbreviation searched := (Scorer.lower_string string []).

(** Without aliases, a match of anything but a space is inside the
    string. *)
Lemma match_inside (index : Z) (a : ascii) :
  (0 ≤ index)%Z → a ∈ abbreviation →
  searched !! Z.to_nat index = Some (lower_char a) →
  (index < len string)%Z.
Proof.
  intros Hidx Ha. rewrite lower_string_eq. simpl join.
  destruct (Z.lt_ge_cases index (len string)) as [|Hge]; [done|].
  unfold len in Hge.
  rewrite lookup_app_r; unfold lower; rewrite length_map; [|lia].
  destruct (Z.to_nat index - length string)%nat as [|n]; [|done].
  simpl. intros [= Hsp]. symmetry in Hsp.
  apply (proj1 (lower_char_space a)) in Hsp. by subst a.
Qed.

Lemma jump_in_unit (si index : Z) (t : Q) :
  in_unit t → (0 ≤ si ≤ index)%Z → (index < len searched)%Z →
  ∃ t', jump string [] si index t = Ok t' ∧ in_unit t'.
Proof.
  intros Ht Hsi Hlt. unfold jump.
  assert (in_unit SCORE_CONTINUE_MATCH ∧ in_unit SCORE_SPACE_WORD_JUMP ∧
          in_unit SCORE_NON_SPACE_WORD_JUMP ∧ in_unit SCORE_CHARACTER_JUMP ∧
          in_unit PENALTY_SKIPPED) as (? & ? & ? & ? & ?).
  { unfold in_unit. repeat split; by vm_compute. }
  destruct (Z.eqb_spec index si) as [|Hne].
  { eexists. split; [done|]. by apply in_unit_mult. }
  destruct (getitem_in_range searched (index - 1)) as (b & -> & _); [lia|].
  cbn [mbind outcome_bind].
  destruct (IS_SPACE b); [eexists; split; [done|]; by apply in_unit_mult|].
  destruct (IS_GAP b); [eexists; split; [done|]; by apply in_unit_mult|].
  destruct (si >? 0)%Z; eexists; (split; [done|]).
  - apply in_unit_mult; [by apply in_unit_mult|].
    apply in_unit_power; [done | lia].
  - by apply in_unit_mult.
Qed.

Lemma case_penalty_in_unit (index ai : Z) (t : Q) :
  in_unit t → (0 ≤ index < len string)%Z → (0 ≤ ai < len abbreviation)%Z →
  ∃ t', case_penalty string abbreviation index ai t = Ok t' ∧ in_unit t'.
Proof.
  intros Ht Hidx Hai. unfold case_penalty.
  destruct (getitem_in_range string index) as (c & -> & _); [done|].
  destruct (getitem_in_range abbreviation ai) as (a & -> & _); [done|].
  cbn [mbind outcome_bind].
  destruct (decide (c ≠ a)); eexists; (split; [done|]); [|done].
  apply in_unit_mult; [done|]. unfold in_unit. split; by vm_compute.
Qed.

(** The loop keeps the best score between 0 and 1, and keeps a best
    score of 1. *)
Lemma while_index_in_unit rec si ai a k index high memo :
  abbreviation !! Z.to_nat ai = Some a → (0 ≤ ai)%Z → (0 ≤ si)%Z →
  (∀ i m, (0 ≤ i)%Z → memo_sound string abbreviation m →
     ∃ v m', rec i (ai + 1)%Z m = Ok (v, m') ∧ in_unit v ∧
             memo_sound string abbreviation m') →
  memo_sound string abbreviation memo → in_unit high →
  index = (-1)%Z ∨
    ((si ≤ index)%Z ∧ searched !! Z.to_nat index = Some (lower_char a) ∧
     (len searched - index ≤ Z.of_nat k)%Z) →
  ∃ v memo',
    while_index string abbreviation [] rec si ai (lower_char a) k index
      high memo = Ok (v, memo') ∧
    in_unit v ∧ memo_sound string abbreviation memo' ∧
    (high = 1%Q → v = 1%Q).
Proof.
  intros Ha Hai Hsi Hrec. revert index high memo.
  assert (a ∈ abbreviation) as Hin by (by eapply list_elem_of_lookup_2).
  assert (ai < len abbreviation)%Z as Hai'.
  { apply lookup_lt_Some in Ha. unfold len. lia. }
  induction k as [|k IH]; intros index high memo Hmemo Hhigh Hidx.
  - destruct Hidx as [->|(Hle & Hc & Hk)]; [by exists high, memo|].
    apply lookup_lt_Some in Hc. unfold len in Hk. lia.
  - destruct Hidx as [->|(Hle & Hc & Hk)].
    { rewrite while_index_done. by exists high, memo. }
    pose proof (match_inside index a ltac:(lia) Hin Hc) as Hinside.
    pose proof (len_lower_string string []) as Hlen.
    rewrite while_index_step by lia.
    destruct (Hrec (index + 1)%Z memo) as (t & m & -> & Ht & Hm); [lia|done|].
    cbn [mbind outcome_bind].
    destruct (jump_in_unit si index t) as (t1 & -> & Ht1); [done|lia|lia|].
    cbn [mbind outcome_bind].
    destruct (case_penalty_in_unit index ai t1) as (t2 & -> & Ht2);
      [done|lia|lia|].
    cbn [mbind outcome_bind].
    destruct (IH (find searched (lower_char a) (index + 1))
                (if Qgtb t2 high then t2 else high) m)
      as (v & memo' & Hloop & Hv & Hmemo' & Hone); [done| | |].
    + by destruct (Qgtb t2 high).
    + destruct (find_spec searched (lower_char a) (index + 1))
        as [[-> _]|(Hr & Hf & _)]; [lia | by left |].
      right. split; [lia|]. split; [done|lia].
    + exists v, memo'. split; [done|]. split; [done|]. split; [done|].
      intros ->. apply Hone.
      destruct (Qgtb t2 1) eqn:Hgt; [|done].
      apply Qgtb_true in Hgt. destruct Ht2 as [_ Ht2].
      by apply Qlt_not_le in Hgt.
Qed.
(** [score] returns a score between 0 and 1 and keeps the memo sound; on
    the diagonal of a string scored against itself the score is 1. *)
Lemma score_in_unit (fuel : nat) (si ai : Z) (memo : memo_t) :
  (0 ≤ si)%Z → (0 ≤ ai ≤ len abbreviation)%Z →
  (len abbreviation - ai < Z.of_nat fuel)%Z →
  memo_sound string abbreviation memo →
  ∃ v memo',
    score string abbreviation [] fuel si ai memo = Ok (v, memo') ∧
    in_unit v ∧ memo_sound string abbreviation memo' ∧
    (string = abbreviation → si = ai → v = 1%Q).
Proof.
  revert si ai memo.
  induction fuel as [|fuel IH]; intros si ai memo Hsi Hai Hfuel Hmemo; [lia|].
  destruct (memo !! (si, ai)) as [v|] eqn:Hhit.
  { exists v, memo. simpl. rewrite Hhit. split; [done|].
    destruct (Hmemo si ai v Hhit). split; [done|]. by split. }
  destruct (Z.eq_dec ai (len abbreviation)) as [->|Hne].
  { simpl. rewrite Hhit, Z.eqb_refl. eexists _, memo. split; [done|].
    split; [|split; [done|]].
    - destruct (si =? len string)%Z; split; by vm_compute.
    - intros -> ->. by rewrite Z.eqb_refl. }
  rewrite score_step by done.
  destruct (getitem_in_range abbreviation ai) as (a & _ & Ha); [lia|].
  assert (getitem (lower_abbreviation abbreviation) ai = Ok (lower_char a))
    as ->.
  { apply getitem_Ok; [lia|]. unfold lower_abbreviation, lower.
    by rewrite list_lookup_fmap, Ha. }
  cbn [mbind outcome_bind].
  assert (∀ i m, (0 ≤ i)%Z → memo_sound string abbreviation m →
            ∃ v m', score string abbreviation [] fuel i (ai + 1)%Z m
                    = Ok (v, m') ∧ in_unit v ∧
                    memo_sound string abbreviation m') as Hrec.
  { intros i m Hi Hm.
    destruct (IH i (ai + 1)%Z m) as (v & m' & ? & ? & ? & _);
      [lia..|done|]. by exists v, m'. }
  assert (in_unit 0%Q) as Hzero by (split; by vm_compute).
  pose proof (len_lower_string string []) as Hlen.
  destruct (decide (string = abbreviation ∧ si = ai)) as [[Hsame <-]|Hoff].
  - (* the diagonal: the first match is at [si] itself and scores 1 *)
    assert (searched !! Z.to_nat si = Some (lower_char a)) as Hhere.
    { apply lower_string_inside. by rewrite Hsame. }
    destruct (find_before searched (lower_char a) si si) as [Hfound _];
      [lia | done |].
    replace (find searched (lower_char a) si) with si by lia.
    destruct (length searched) as [|k] eqn:Hk; [unfold len in Hlen; lia|].
    rewrite while_index_step by lia.
    destruct (IH (si + 1)%Z (si + 1)%Z memo) as (t & m & -> & _ & Hm & Hone);
      [lia..|done|].
    rewrite (Hone Hsame eq_refl). cbn [mbind outcome_bind].
    unfold jump. rewrite Z.eqb_refl. cbn [mbind outcome_bind].
    unfold case_penalty.
    assert (getitem string si = Ok a) as ->.
    { apply getitem_Ok; [lia|]. by rewrite Hsame. }
    assert (getitem abbreviation si = Ok a) as -> by (apply getitem_Ok; [lia|done]).
    cbn [mbind outcome_bind].
    destruct (decide (a ≠ a)) as [?|_]; [done|]. cbn [mbind outcome_bind].
    change (if Qgtb (1 * SCORE_CONTINUE_MATCH) 0
            then (1 * SCORE_CONTINUE_MATCH)%Q else 0%Q) with 1%Q.
    assert (in_unit 1%Q) as Hunit by (split; by vm_compute).
    assert (find searched (lower_char a) (si + 1) = (-1)%Z ∨
            (si ≤ find searched (lower_char a) (si + 1))%Z ∧
            searched !! Z.to_nat (find searched (lower_char a) (si + 1))
            = Some (lower_char a) ∧
            (len searched - find searched (lower_char a) (si + 1)
             ≤ Z.of_nat k)%Z) as Hnext.
    { destruct (find_spec searched (lower_char a) (si + 1))
        as [[-> _]|(Hr & Hf & _)]; [lia | by left |].
      right. split; [lia|]. split; [done|]. unfold len in *. lia. }
    destruct (while_index_in_unit (score string abbreviation [] fuel)
                si si a k (find searched (lower_char a) (si + 1)) 1%Q m
                Ha Hsi Hsi Hrec Hm Hunit Hnext)
      as (v & memo' & -> & Hv & Hmemo' & Hone').
    cbn [mbind outcome_bind]. rewrite (Hone' eq_refl).
    exists 1%Q, (<[(si, si) := 1%Q]> memo'). split; [done|].
    split; [split; by vm_compute|]. split; [|done].
    apply memo_sound_insert; [done | split; by vm_compute | done].
  - assert (find searched (lower_char a) si = (-1)%Z ∨
            (si ≤ find searched (lower_char a) si)%Z ∧
            searched !! Z.to_nat (find searched (lower_char a) si)
            = Some (lower_char a) ∧
            (len searched - find searched (lower_char a) si
             ≤ Z.of_nat (length searched))%Z) as Hstart.
    { destruct (find_spec searched (lower_char a) si)
        as [[-> _]|(Hr & Hf & _)]; [lia | by left |].
      right. split; [lia|]. split; [done|]. unfold len in *. lia. }
    destruct (while_index_in_unit (score string abbreviation [] fuel)
                si ai a (length searched)
                (find searched (lower_char a) si) 0%Q memo
                Ha (proj1 Hai) Hsi Hrec Hmemo Hzero Hstart)
      as (v & memo' & -> & Hv & Hmemo' & _).
    cbn [mbind outcome_bind].
    exists v, (<[(si, ai) := v]> memo'). split; [done|]. split; [done|].
    split; [|by intros ? ?; destruct Hoff].
    apply memo_sound_insert; [done..|]. by intros ? ?; destruct Hoff.
Qed.
End bounded.

(** A query without a space, and no aliases: [command_score] returns a
    score between 0 and 1. *)
Lemma command_score_in_unit (string abbreviation : str) :
  " "%char ∉ abbreviation →
  ∃ v, command_score string abbreviation None = Ok v ∧ in_unit v.
Proof.
  intros Hsp. unfold command_score. simpl default.
  destruct (score_in_unit string abbreviation Hsp
              (S (length abbreviation)) 0 0 ∅)
    as (v & memo & -> & Hv & _); [unfold len; lia..|apply memo_sound_empty|].
  by exists v.
Qed.




(** The empty query stops at the base case of line 61. *)
Lemma command_score_empty_query (x : str) (aliases : option (list str)) :
  command_score x (s "") aliases
  = Ok (if (0 =? len x)%Z then SCORE_CONTINUE_MATCH else SCORE_PARTIAL).
Proof.
  unfold command_score.
  change (S (length (s ""))) with 1%nat.
  change 0%Z with (len (s "")) at 2.
  by rewrite score_base.
Qed.

(** The factor applied for a match that does not continue the previous
    one, by the character just before it. *)
Lemma jump_factor (string : str) (aliases : list str) (si index : Z)
    (before : ascii) (t : Q) :
  index ≠ si →
  getitem (lower_string string aliases) (index - 1) = Ok before →
  jump string aliases si index t
  = Ok (if IS_SPACE before then t * SCORE_SPACE_WORD_JUMP
        else if IS_GAP before then t * SCORE_NON_SPACE_WORD_JUMP
        else if (si >? 0)%Z
             then t * SCORE_CHARACTER_JUMP * PENALTY_SKIPPED ^ (index - si)
             else t * SCORE_CHARACTER_JUMP)%Q.
Proof.
  intros Hne Hb. unfold jump. rewrite Hb.
  destruct (Z.eqb_spec index si) as [|_]; [done|]. cbn [mbind outcome_bind].
  by destruct (IS_SPACE before), (IS_GAP before), (si >? 0)%Z.
Qed.

(** C6. A jump to a word boundary outscores a jump inside a token:
    [score("foo-bar", "fb")] is 0.99 * 0.9, the match of [b] at index 4
    being preceded by a hyphen, and [score("fobar", "fb")] is
    0.99 * 0.17 * 0.999, the match of [b] at index 2 being a character jump
    over one character that does not start at index 0; the former is the
    larger.  A character of the gap class before the match gives the
    factor 0.8, as in [foo.bar]. *)
Theorem word_boundary_beats_character_jump :
  (∃ a b : Q,
     command_score (s "foo-bar") (s "fb") None = Ok a ∧
     command_score (s "fobar") (s "fb") None = Ok b ∧
     (b < a)%Q ∧
     (a == SCORE_PARTIAL * SCORE_SPACE_WORD_JUMP)%Q ∧
     (b == SCORE_PARTIAL * SCORE_CHARACTER_JUMP * PENALTY_SKIPPED ^ 1)%Q) ∧
  (∀ t, jump (s "foo-bar") [] 1 4 t = Ok (t * SCORE_SPACE_WORD_JUMP)%Q) ∧
  (∀ t, jump (s "foo.bar") [] 1 4 t = Ok (t * SCORE_NON_SPACE_WORD_JUMP)%Q) ∧
  (∀ t, jump (s "fobar") [] 1 2 t
        = Ok (t * SCORE_CHARACTER_JUMP * PENALTY_SKIPPED ^ (2 - 1))%Q) ∧
  (SCORE_SPACE_WORD_JUMP == 0.9)%Q ∧ (SCORE_NON_SPACE_WORD_JUMP == 0.8)%Q ∧
  (SCORE_CHARACTER_JUMP == 0.17)%Q ∧ (PENALTY_SKIPPED == 0.999)%Q.
Proof.
  split.
  { eexists. eexists.
    split; [vm_compute; reflexivity|].
    split; [vm_compute; reflexivity|].
    split; [|split]; reflexivity. }
  split; [intros t; by apply (jump_factor _ _ _ _ "-"%char)|].
  split; [intros t; by apply (jump_factor _ _ _ _ "."%char)|].
  split.
  { intros t. rewrite (jump_factor _ _ _ _ "o"%char) by done.
    vm_compute. reflexivity. }
  repeat split.
Qed.

(** C4, at a string with a space: the identical string does not score 1,
    the call raises.  The diagonal match reaches the space of the query,
    whose later occurrence in [lower_string] is the separator appended at
    line 47, and line 88 indexes the original string there. *)
Theorem command_score_self_with_space_raises :
  command_score (s "a b") (s "a b") None = Raise IndexError.
Proof. vm_compute. reflexivity. Qed.

(** ** The resolver *)

Lemma for_return_app {A B} (xs ys : list A) (body : A → option B) :
  for_return (xs ++ ys) body
  = match for_return xs body with
    | Some b => Some b
    | None => for_return ys body
    end.
Proof.
  induction xs as [|x xs IH]; simpl; [done|]. by destruct (body x).
Qed.

(** Two nested loops go through the pairs in the order of [list_prod]. *)
Lemma for_return_nested {A B C} (xs : list A) (ys : list B)
    (body : A → B → option C) :
  for_return xs (λ x, for_return ys (body x))
  = for_return (list_prod xs ys) (λ c, body c.1 c.2).
Proof.
  induction xs as [|x xs IH]; simpl; [done|].
  rewrite for_return_app, <- IH.
  assert (for_return (map (λ y, (x, y)) ys) (λ c, body c.1 c.2)
          = for_return ys (body x)) as ->; [|done].
  clear. induction ys as [|y ys IH]; simpl; [done|]. by rewrite IH.
Qed.

(** A loop that returns at the first element passing a test. *)
Lemma for_return_find {A B} (xs : list A) (body : A → option B)
    (test : A → bool) (value : A → B) :
  (∀ x, body x = if test x then Some (value x) else None) →
  for_return xs body = value <$> List.find test xs.
Proof.
  intros Hbody. induction xs as [|x xs IH]; simpl; [done|].
  rewrite Hbody. by destruct (test x).
Qed.

Lemma try_variant_usable (fs : filesystem) (dir : path) (variant : str) :
  try_variant fs dir variant
  = if usable fs (dir, variant) then Some (resolved fs (dir, variant))
    else None.
Proof.
  unfold try_variant, usable, resolved, config_of, store_dir. simpl.
  by destruct (path_exists fs (dir /: lower variant)).
Qed.

(** C3, as it holds.  [Code()] is resolved from the first pair, in the
    order directories by variants, whose executable exists, whose
    configuration directory exists, and whose configuration directory
    holds [storage.json], the legacy file; the primary store [state.vscdb]
    is given a path but is not looked for.  Without such a pair every
    field stays [None]. *)
Theorem init_first_usable (fs : filesystem) :
  init fs = match List.find (usable fs) candidates with
            | Some c => resolved fs c
            | None => unresolved
            end ∧
  (is_installed (init fs) = true ↔ ∃ c, c ∈ candidates ∧ usable fs c = true).
Proof.
  assert (init fs = match List.find (usable fs) candidates with
                    | Some c => resolved fs c
                    | None => unresolved
                    end) as Hinit.
  { unfold init. rewrite for_return_nested.
    rewrite (for_return_find _ _ (usable fs) (resolved fs)).
    - by destruct (List.find _ _).
    - intros [dir variant]. apply try_variant_usable. }
  split; [done|]. rewrite Hinit.
  destruct (List.find (usable fs) candidates) as [c|] eqn:Hfind.
  - split; [|done]. intros _. exists c.
    apply find_some in Hfind as [Hin Hc]. by rewrite list_elem_of_In.
  - split; [done|]. intros (c & Hin & Hc). exfalso.
    apply list_elem_of_In in Hin.
    pose proof (find_none _ _ Hfind c Hin) as Hno. congruence.
Qed.

(** C3, as stated, fails in both directions.  With the executable, the
    configuration directory and the primary store [state.vscdb] in place
    but no [storage.json], nothing is resolved; with [storage.json] in the
    place of [state.vscdb], the installation is resolved. *)
Lemma resolution_looks_for_the_legacy_file :
  (usable_primary Examples.fs_primary_only (s "/usr/bin", s "Code") = true ∧
   (s "/usr/bin", s "Code") ∈ candidates ∧
   init Examples.fs_primary_only = unresolved ∧
   is_installed (init Examples.fs_primary_only) = false) ∧
  ((∀ c, c ∈ candidates → usable_primary Examples.fs_legacy_only c = false) ∧
   is_installed (init Examples.fs_legacy_only) = true ∧
   installed_path (init Examples.fs_legacy_only) = Some Examples.exe).
Proof.
  split.
  - split; [vm_compute; reflexivity|]. split; [|split; vm_compute; reflexivity].
    apply list_elem_of_In. vm_compute. by left.
  - split; [|split; vm_compute; reflexivity].
    intros c Hc. apply list_elem_of_In in Hc. vm_compute in Hc.
    repeat (destruct Hc as [<-|Hc]; [vm_compute; reflexivity|]). done.
Qed.

(** ** The loader and its cache *)

Lemma Qltb_true (a b : Q) : Qltb a b = true ↔ (a < b)%Q.
Proof.
  unfold Qltb. rewrite negb_true_iff, <- not_true_iff_false, Qle_bool_iff.
  split; [apply Qnot_le_lt | apply Qlt_not_le].
Qed.

Lemma truthy_true {A} (l : list A) : truthy l = true ↔ l ≠ [].
Proof. by destruct l. Qed.

(** The cached list is used exactly when it is there, non-empty and
    younger than sixty seconds. *)
Lemma cache_lookup_Some (now : Q) (st : state) (E : list recent) :
  cache_lookup now st = Some E ↔
  cached_recents st = Some E ∧ E ≠ [] ∧
  (now - cache_timestamp st < _cache_duration)%Q.
Proof.
  unfold cache_lookup. destruct (cached_recents st) as [cached|];
    [|split; [done | by intros [? _]]].
  destruct (truthy cached) eqn:Ht; simpl.
  - destruct (Qltb _ _) eqn:Hq.
    + apply Qltb_true in Hq. apply truthy_true in Ht.
      split; [by intros [= <-] | by intros [-> _]].
    + split; [done|]. intros (Heq & _ & Hlt). injection Heq as ->.
      apply Qltb_true in Hlt. congruence.
  - split; [done|]. intros (Heq & Hne & _). injection Heq as ->.
    apply truthy_true in Hne. congruence.
Qed.

Lemma cache_lookup_None (now : Q) (st : state) (E : list recent) :
  cached_recents st = Some E →
  E = [] ∨ (_cache_duration <= now - cache_timestamp st)%Q →
  cache_lookup now st = None.
Proof.
  intros HE Hmiss. destruct (cache_lookup now st) as [E'|] eqn:Hl; [|done].
  apply cache_lookup_Some in Hl as (HE' & Hne & Hlt).
  rewrite HE in HE'. injection HE' as <-.
  destruct Hmiss as [->|Hle]; [done|]. by apply Qle_not_lt in Hle.
Qed.

(** The reads of a reload start with the primary store when it exists. *)
Lemma reload_reads_primary (w : world) (self : Code) (lt : Q) (st : state)
    (db : path) :
  global_state_db self = Some db → path_exists (fs w) db = true →
  ∃ rest, trace (reload w self lt st).2
          = trace st ++ ReadGlobalState db :: rest.
Proof.
  intros Hdb Hex. unfold reload, load_primary, get_recents_global_state.
  rewrite Hdb. simpl. rewrite Hex.
  set (st1 := record_io (ReadGlobalState db) st).
  assert (∀ recents, ∃ rest,
    trace (load_legacy w self recents st1).2
    = trace st ++ ReadGlobalState db :: rest) as Hleg.
  { intros recents. unfold load_legacy, get_recents_legacy.
    destruct (truthy recents); [by exists []|].
    destruct (storage_json self) as [file|]; simpl; [|by exists []].
    destruct (path_exists (fs w) file); [|by exists []].
    exists [ReadStorageJson file]. simpl. by rewrite <- app_assoc. }
  assert (∀ recents, ∃ rest,
    trace (match load_legacy w self recents st1 with
           | (Ok recents0, st0) => (Ok recents0, update_cache recents0 lt st0)
           | failed => failed
           end).2 = trace st ++ ReadGlobalState db :: rest) as Hupd.
  { intros recents. destruct (Hleg recents) as [rest Hrest].
    exists rest. by destruct (load_legacy w self recents st1) as [[]]. }
  destruct (read_global_state w db ≫= _) as [recents|e|]; [apply Hupd| |].
  - destruct (attr_exists w (storage_json self)) as [[]| |];
      [apply Hupd | by exists [] ..].
  - by exists [].
Qed.

(** C1, as it holds.  With a list [E] in the cache: if [E] is non-empty,
    a call within sixty seconds of the load returns [E] and leaves the
    state as it is, reads included, so two such calls in a row read no
    store at all; if [E] is empty, or the sixty seconds have passed, the
    call runs the reload, which reads the primary store when there is
    one. *)
Theorem get_recents_cached_or_reloaded (w : world) (self : Code) (st : state)
    (E : list recent) (now load_time : Q) :
  cached_recents st = Some E →
  (E ≠ [] → (now - cache_timestamp st < _cache_duration)%Q →
     get_recents w self now load_time st = (Ok E, st) ∧
     ∀ now' load_time', (now' - cache_timestamp st < _cache_duration)%Q →
       get_recents w self now' load_time'
         (get_recents w self now load_time st).2 = (Ok E, st)) ∧
  (E = [] ∨ (_cache_duration <= now - cache_timestamp st)%Q →
     get_recents w self now load_time st = reload w self load_time st ∧
     ∀ db, global_state_db self = Some db → path_exists (fs w) db = true →
       ∃ rest, trace (get_recents w self now load_time st).2
               = trace st ++ ReadGlobalState db :: rest).
Proof.
  intros HE. split.
  - intros Hne Hlt.
    assert (∀ t lt', (t - cache_timestamp st < _cache_duration)%Q →
              get_recents w self t lt' st = (Ok E, st)) as Hhit.
    { intros t lt' Ht. unfold get_recents.
      by rewrite (proj2 (cache_lookup_Some t st E)). }
    split; [by apply Hhit|]. intros now' lt' Hlt'.
    rewrite (Hhit now load_time Hlt). by apply Hhit.
  - intros Hmiss.
    assert (get_recents w self now load_time st = reload w self load_time st)
      as Heq.
    { unfold get_recents. by rewrite (cache_lookup_None now st E). }
    split; [done|]. intros db Hdb Hex. rewrite Heq.
    by apply reload_reads_primary.
Qed.

(** An instance: the folder cached at time 100, asked for at time 130. *)
Lemma get_recents_cached_or_reloaded_witness :
  get_recents Examples.w_both Examples.code 130 131 Examples.st_loaded
  = (Ok [Examples.folder_recent], Examples.st_loaded).
Proof.
  refine (proj1 (proj1 (get_recents_cached_or_reloaded
    Examples.w_both Examples.code Examples.st_loaded
    [Examples.folder_recent] 130 131 _) _ _)).
  - reflexivity.
  - discriminate.
  - reflexivity.
Defined.

(** C1, as stated, fails for the empty list: a load at time 1 caches
    the empty list (no workspace is in the store), and the call at time 2,
    well within sixty seconds, reads both stores again. *)
Lemma empty_cached_list_is_reloaded :
  let st0 := set_include_types (s "workspace") initial in
  let st1 := (get_recents Examples.w_both Examples.code 0 1 st0).2 in
  let st2 := (get_recents Examples.w_both Examples.code 2 3 st1).2 in
  cached_recents st1 = Some [] ∧ cache_timestamp st1 = 1%Q ∧
  (2 - cache_timestamp st1 < _cache_duration)%Q ∧
  trace st1 = [ReadGlobalState Examples.db; ReadStorageJson Examples.legacy] ∧
  trace st2 = trace st1
              ++ [ReadGlobalState Examples.db; ReadStorageJson Examples.legacy].
Proof. vm_compute. repeat split; reflexivity. Qed.

(** C9. On a reload, with the primary store present and its read (or the
    parsing of what was read) raising [e]: without a legacy store the call
    raises [e] and leaves [_cached_recents] and [_cache_timestamp] as they
    were, so that any later look at the cache sees what it saw before;
    with a legacy store the call goes on with the legacy read, whose
    result, or exception, is the one of the call. *)
Theorem primary_failure_propagates_or_falls_back (w : world) (self : Code)
    (st : state) (now load_time : Q) (db file : path) (e : exn) :
  global_state_db self = Some db →
  storage_json self = Some file →
  cache_lookup now st = None →
  path_exists (fs w) db = true →
  (get_recents_global_state w self st).1 = Raise e →
  let st1 := record_io (ReadGlobalState db) st in
  (path_exists (fs w) file = false →
     get_recents w self now load_time st = (Raise e, st1)) ∧
  (path_exists (fs w) file = true →
     get_recents w self now load_time st
     = match get_recents_legacy w self st1 with
       | (Ok recents, st2) => (Ok recents, update_cache recents load_time st2)
       | failed => failed
       end) ∧
  cached_recents st1 = cached_recents st ∧
  cache_timestamp st1 = cache_timestamp st ∧
  ∀ t, cache_lookup t st1 = cache_lookup t st.
Proof.
  intros Hdb Hfile Hmiss Hex Hfail st1.
  assert (get_recents_global_state w self st = (Raise e, st1)) as Hgs.
  { revert Hfail. unfold get_recents_global_state. rewrite Hdb. simpl.
    by intros ->. }
  split; [|split; [|done]].
  - intros Hno. unfold get_recents, reload, load_primary.
    rewrite Hmiss, Hdb, Hfile. simpl. by rewrite Hex, Hgs, Hno.
  - intros Hyes. unfold get_recents, reload, load_primary.
    rewrite Hmiss, Hdb, Hfile. simpl. rewrite Hex, Hgs, Hyes.
    unfold load_legacy. rewrite Hfile. simpl. by rewrite Hyes.
Qed.

(** Two instances, at time 200 with the folder cached at time 100: the
    legacy file gone, and the legacy file holding the file entry. *)
Lemma primary_failure_propagates_or_falls_back_witness :
  get_recents Examples.w_broken Examples.code 200 201 Examples.st_loaded
  = (Raise (OSError 5),
     record_io (ReadGlobalState Examples.db) Examples.st_loaded) ∧
  (get_recents Examples.w_broken_with_legacy Examples.code 200 201
     Examples.st_loaded).1 = Ok [Examples.file_recent].
Proof.
  split.
  - refine (proj1 (primary_failure_propagates_or_falls_back
      Examples.w_broken Examples.code Examples.st_loaded 200 201
      Examples.db Examples.legacy (OSError 5) _ _ _ _ _) _);
      vm_compute; reflexivity.
  - rewrite (proj1 (proj2 (primary_failure_propagates_or_falls_back
      Examples.w_broken_with_legacy Examples.code Examples.st_loaded 200 201
      Examples.db Examples.legacy (OSError 5)
      eq_refl eq_refl eq_refl eq_refl eq_refl)) eq_refl).
    vm_compute. reflexivity.
Defined.

(** *** Type filtering *)

Lemma type_filter_types (recents out : list recent)
    (include : option (list str)) (r : recent) :
  type_filter recents include = Ok out → r ∈ out →
  ∃ tys, include = Some tys ∧ type_ r ∈ tys.
Proof.
  unfold type_filter. destruct include as [tys|].
  - intros [= <-] Hr. apply list_elem_of_filter in Hr as [Hty _]. by exists tys.
  - destruct recents; [|done]. intros [= <-] Hr. by apply elem_of_nil in Hr.
Qed.

Lemma parse_entry_paths_types (entries : list raw_entry) (out : list recent)
    (include : option (list str)) (r : recent) :
  parse_entry_paths entries include = Ok out → r ∈ out →
  ∃ tys, include = Some tys ∧ type_ r ∈ tys.
Proof.
  unfold parse_entry_paths.
  destruct (parse_entries entries []) as [recents| |];
    cbn [mbind outcome_bind]; [|done..].
  apply type_filter_types.
Qed.

(** Whatever a reload returns went through the filter of line 276 under
    the types configured at that moment. *)
Lemma reload_types (w : world) (self : Code) (load_time : Q) (st st' : state)
    (recents : list recent) (r : recent) :
  reload w self load_time st = (Ok recents, st') → r ∈ recents →
  ∃ tys, include_types st = Some tys ∧ type_ r ∈ tys.
Proof.
  unfold reload.
  destruct (load_primary w self st) as [[first| |] st1] eqn:Hp; [|done..].
  assert (include_types st1 = include_types st ∧
          ∀ x, x ∈ first → ∃ tys, include_types st = Some tys ∧ type_ x ∈ tys)
    as [Hinc Hfirst].
  { revert Hp. unfold load_primary, get_recents_global_state.
    destruct (global_state_db self) as [db|]; simpl; [|done].
    destruct (path_exists (fs w) db).
    - destruct (read_global_state w db ≫= _) as [got|e|] eqn:Hg.
      + intros [= <- <-]. split; [done|]. intros x.
        revert Hg. destruct (read_global_state w db) as [entries| |];
          cbn [mbind outcome_bind]; [|done..].
        apply parse_entry_paths_types.
      + destruct (attr_exists w (storage_json self)) as [[]| |]; try done.
        intros [= <- <-]. split; [done|]. intros x Hx.
        by apply elem_of_nil in Hx.
      + done.
    - intros [= <- <-]. split; [done|]. intros x Hx.
      by apply elem_of_nil in Hx. }
  destruct (load_legacy w self first st1) as [[second| |] st2] eqn:Hl;
    [|done..].
  intros [= <- <-]. revert Hl. unfold load_legacy, get_recents_legacy.
  destruct (truthy first).
  - intros [= <- <-]. apply Hfirst.
  - destruct (storage_json self) as [file|]; simpl; [|done].
    destruct (path_exists (fs w) file).
    + rewrite Hinc.
      destruct (read_storage_json w file) as [entries| |];
        cbn [mbind outcome_bind]; [|done..].
      intros [= Hparse _]. revert Hparse. apply parse_entry_paths_types.
    + intros [= <- <-]. apply Hfirst.
Qed.

(** C2, as it holds.  The entries that a reload returns all have a type
    in the list configured when the reload runs; in particular with
    [include_types = ["file"]] they are all files.  The cache is looked up
    without regard to [include_types]: after a change, a call that finds
    the cache valid returns the cached entries as they are, and the new
    list applies from the next reload on. *)
Theorem include_types_applies_at_reload (w : world) (self : Code)
    (st st' : state) (now load_time : Q) (recents : list recent) :
  cache_lookup now st = None →
  get_recents w self now load_time st = (Ok recents, st') →
  (∀ r, r ∈ recents → ∃ tys, include_types st = Some tys ∧ type_ r ∈ tys) ∧
  (include_types st = Some [s "file"] →
     ∀ r, r ∈ recents → type_ r = s "file") ∧
  ∀ (st0 : state) (value : str) (cached : list recent),
    cache_lookup now st0 = Some cached →
    get_recents w self now load_time (set_include_types value st0)
    = (Ok cached, set_include_types value st0).
Proof.
  intros Hmiss. unfold get_recents at 1. rewrite Hmiss. intros Hre.
  assert (∀ r, r ∈ recents →
            ∃ tys, include_types st = Some tys ∧ type_ r ∈ tys) as Hall.
  { intros r. by eapply reload_types. }
  split; [done|]. split.
  - intros Hfile r Hr. destruct (Hall r Hr) as (tys & Htys & Hin).
    rewrite Hfile in Htys. injection Htys as <-.
    by apply list_elem_of_singleton in Hin.
  - intros st0 value cached Hhit. unfold get_recents.
    assert (cache_lookup now (set_include_types value st0)
            = cache_lookup now st0) as -> by done.
    by rewrite Hhit.
Qed.

(** An instance: the first call after start-up, with folders and files
    configured. *)
Lemma include_types_applies_at_reload_witness :
  ∃ tys, Some [s "folder"; s "file"] = Some tys ∧
         type_ Examples.file_recent ∈ tys.
Proof.
  refine (proj1 (include_types_applies_at_reload
    Examples.w_both Examples.code
    (set_include_types (s "folder,file") initial)
    (get_recents Examples.w_both Examples.code 0 1
       (set_include_types (s "folder,file") initial)).2
    0 1 [Examples.folder_recent; Examples.file_recent] _ _)
    Examples.file_recent _).
  - vm_compute. reflexivity.
  - vm_compute. reflexivity.
  - apply list_elem_of_In. right. left. reflexivity.
Defined.

(** C2, as stated, fails for a query answered from the cache: the cache
    is filled at time 1 with folders configured, [include_types] is then
    changed to files only, and the query at time 10 still ranks the
    folder. *)
Lemma cached_entries_ignore_new_include_types :
  let st1 := (get_recents Examples.w_both Examples.code 0 1
                (set_include_types (s "folder") initial)).2 in
  let st2 := set_include_types (s "file") st1 in
  include_types st2 = Some [s "file"] ∧
  ∃ d, (get_ext_result_items Examples.w_both Examples.code None (s "proj")
          10 11 st2).1 = Ok [d] ∧
       recent_ d = Examples.folder_recent ∧
       type_ (recent_ d) = s "folder" ∧ type_ (recent_ d) ≠ s "file".
Proof.
  split; [reflexivity|]. eexists. split; [vm_compute; reflexivity|].
  split; [reflexivity|]. split; [reflexivity|]. discriminate.
Qed.

(** *** Labels *)

Lemma getitem_last {A} (l : list A) (x : A) :
  last l = Some x → getitem l (-1) = Ok x.
Proof.
  intros Hlast. rewrite last_lookup in Hlast.
  pose proof (lookup_lt_Some _ _ _ Hlast) as Hlt.
  unfold getitem, len. change (-1 <? 0)%Z with true. cbv beta zeta iota.
  destruct (Z.ltb_spec (-1 + Z.of_nat (length l)) 0) as [?|_]; [lia|].
  replace (Z.to_nat (-1 + Z.of_nat (length l))) with (Nat.pred (length l))
    by lia.
  by rewrite Hlast.
Qed.

(** The pieces of [split]: the first one has no separator; when there are
    more, the string is something ending in the separator followed by the
    last piece, which has no separator either. *)
Lemma split_pieces (sep : ascii) (x : str) :
  ∃ first rest, split sep x = first :: rest ∧ (sep ∉ first) ∧
    ((rest = [] ∧ x = first) ∨
     (∃ pre seg, last rest = Some seg ∧ x = pre ++ seg ∧ (sep ∉ seg) ∧
                 last pre = Some sep)).
Proof.
  induction x as [|c x (first & rest & Hsplit & Hfirst & Hrest)]; simpl.
  - exists [], []. split; [done|]. split; [apply not_elem_of_nil|]. by left.
  - rewrite Hsplit. destruct (decide (c = sep)) as [->|Hc].
    + exists [], (first :: rest). split; [done|].
      split; [apply not_elem_of_nil|]. right.
      destruct Hrest as [[-> ->]|(pre & seg & Hlast & -> & Hseg & Hpre)].
      * by exists [sep], first.
      * exists (sep :: pre), seg. split; [|split; [done|split; [done|]]].
        -- destruct rest; [done|]. by rewrite last_cons_cons.
        -- destruct pre; [done|]. by rewrite last_cons_cons.
    + exists (c :: first), rest. split; [done|].
      split; [by rewrite not_elem_of_cons|].
      destruct Hrest as [[-> ->]|(pre & seg & Hlast & -> & Hseg & Hpre)].
      * by left.
      * right. exists (c :: pre), seg. split; [done|]. split; [done|].
        split; [done|]. destruct pre; [done|]. by rewrite last_cons_cons.
Qed.

(** [x.split(sep)[-1]] is what follows the last separator of [x]. *)
Lemma split_last (sep : ascii) (x : str) :
  ∃ pre seg, getitem (split sep x) (-1) = Ok seg ∧ x = pre ++ seg ∧
             (sep ∉ seg) ∧ (pre = [] ∨ last pre = Some sep).
Proof.
  destruct (split_pieces sep x) as (first & rest & Hsplit & Hfirst & Hrest).
  rewrite Hsplit.
  destruct Hrest as [[-> ->]|(pre & seg & Hlast & -> & Hseg & Hpre)].
  - exists [], first. split; [by apply getitem_last|]. by repeat split; [|left].
  - exists pre, seg. split; [|by repeat split; [|right]].
    apply getitem_last. destruct rest; [done|]. by rewrite last_cons_cons.
Qed.

(** C8, as it holds.  For a record that normalisation accepts, the label
    is the label of the record when it has one; otherwise it is the part
    of the location after its last slash (the whole location when there is
    none), and that part is empty exactly when the location is empty or
    ends in a slash. *)
Theorem parse_entry_label (path : raw_entry) (r : recent) :
  parse_entry path = Ok (Some r) →
  match raw_label path with
  | Some l => label r = l
  | None =>
      (∃ pre, uri r = pre ++ label r ∧ ("/"%char ∉ label r) ∧
              (pre = [] ∨ last pre = Some "/"%char)) ∧
      (label r = [] ↔ uri r = [] ∨ last (uri r) = Some "/"%char)
  end.
Proof.
  unfold parse_entry.
  destruct (match folderUri path with Some _ => _ | None => _ end)
    as [[[[[u ic] opt] ty]|]| |]; cbn [mbind outcome_bind]; [|done..].
  destruct (raw_label path) as [l|]; cbn [mbind outcome_bind].
  - by intros [= <-].
  - destruct (split_last "/" u) as (pre & seg & -> & -> & Hseg & Hpre).
    cbn [mbind outcome_bind]. intros [= <-]. simpl. split.
    + by exists pre.
    + split.
      * intros ->. rewrite app_nil_r. destruct Hpre; [by left | by right].
      * intros [Hnil|Hlast].
        -- by apply app_eq_nil in Hnil as [_ ->].
        -- destruct seg as [|c seg] using rev_ind; [done|].
           rewrite app_assoc, last_snoc in Hlast. injection Hlast as ->.
           exfalso. apply Hseg. apply elem_of_app. right. by left.
Qed.

(** An instance: the file entry, whose label comes from its location. *)
Lemma parse_entry_label_witness :
  (∃ pre, s "file:///home/u/notes.txt" = pre ++ s "notes.txt" ∧
          ("/"%char ∉ s "notes.txt") ∧ (pre = [] ∨ last pre = Some "/"%char)) ∧
  (s "notes.txt" = [] ↔
   s "file:///home/u/notes.txt" = [] ∨
   last (s "file:///home/u/notes.txt") = Some "/"%char).
Proof.
  refine (parse_entry_label Examples.file_raw Examples.file_recent _).
  vm_compute. reflexivity.
Defined.

(** C8, as stated, fails for a location that ends in a slash: the record
    is accepted and its label is the empty string. *)
Lemma trailing_slash_gives_empty_label :
  ∃ r, parse_entry Examples.slash_raw = Ok (Some r) ∧
       uri r = s "file:///home/u/proj/" ∧ label r = [].
Proof. eexists. split; [vm_compute; reflexivity|]. by split. Qed.

(** ** The ranker *)


(** With the empty query every entry passes the test of line 343. *)
Lemma score_recent_empty_query (prefer_type : option str) (r : recent) :
  ∃ v : Q, (THRESHOLD < v)%Q ∧
    score_recent prefer_type (s "") r = Ok (Some {| recent_ := r; score_ := v |}).
Proof.
  unfold score_recent. rewrite !command_score_empty_query.
  cbn [mbind outcome_bind].
  destruct (preferred prefer_type r), (0 =? len (label r))%Z,
    (0 =? len (uri r))%Z;
    (eexists; split; [|vm_compute; reflexivity]); reflexivity.
Qed.

(** The loop appends to [data]: it can be run from the empty list. *)
Lemma score_recents_acc (prefer_type : option str) (query : str)
    (recents : list recent) (data : list scored) :
  score_recents prefer_type query recents data
  = new ← score_recents prefer_type query recents []; Ok (data ++ new).
Proof.
  revert data. induction recents as [|r recents IH]; intros data.
  - simpl. by rewrite app_nil_r.
  - simpl. destruct (score_recent prefer_type query r) as [x| |];
      cbn [mbind outcome_bind]; [|done..].
    rewrite IH. symmetry. rewrite IH.
    destruct (score_recents prefer_type query recents []) as [new| |];
      cbn [mbind outcome_bind]; [|done..].
    destruct x; simpl; by rewrite <- ?app_assoc.
Qed.

(** What the loop keeps is a subsequence of the entries. *)
Lemma score_recents_sublist (prefer_type : option str) (query : str)
    (recents : list recent) (data : list scored) :
  score_recents prefer_type query recents [] = Ok data →
  map recent_ data `sublist_of` recents.
Proof.
  revert data. induction recents as [|r recents IH]; intros data.
  - simpl. by intros [= <-].
  - simpl. unfold score_recent.
    destruct (command_score (label r) query None) as [ls| |];
      cbn [mbind outcome_bind]; [|done..].
    destruct (command_score (uri r) query None) as [us| |];
      cbn [mbind outcome_bind]; [|done..].
    destruct (_ || _); cbn [mbind outcome_bind]; rewrite score_recents_acc;
      destruct (score_recents prefer_type query recents []) as [new| |];
      cbn [mbind outcome_bind]; try done; intros [= <-]; simpl.
    + constructor. by apply IH.
    + constructor. by apply IH.
Qed.

(** C5. A non-empty candidate scores the constant 0.99 against the empty
    query, whatever the candidate and the aliases; and with the empty query
    the loop of lines 332-344 keeps every entry, in order, each with a score
    above the threshold 0.1, so that the result is the first 15 of them
    after the sort. *)
Theorem empty_query_keeps_every_entry (x : str) (aliases : option (list str))
    (prefer_type : option str) (recents : list recent) :
  x ≠ [] →
  command_score x (s "") aliases = Ok SCORE_PARTIAL ∧
  ∃ data,
    score_recents prefer_type (s "") recents [] = Ok data ∧
    map recent_ data = recents ∧
    Forall (λ d, (THRESHOLD < score_ d)%Q) data ∧
    rank prefer_type (s "") recents = Ok (take MAX_ITEMS (sorted_reverse data)).
Proof.
  intros Hx. split.
  - rewrite command_score_empty_query. by destruct x.
  - unfold rank.
    assert (∃ data, score_recents prefer_type (s "") recents [] = Ok data ∧
              map recent_ data = recents ∧
              Forall (λ d, (THRESHOLD < score_ d)%Q) data)
      as (data & -> & Hmap & Hall).
    { clear. induction recents as [|r recents (data & IH & Hmap & Hall)].
      - by exists [].
      - destruct (score_recent_empty_query prefer_type r) as (v & Hv & Hr).
        exists ({| recent_ := r; score_ := v |} :: data).
        cbn [score_recents map]. rewrite Hr. cbn [mbind outcome_bind].
        rewrite score_recents_acc, IH. cbn [mbind outcome_bind].
        split; [done|]. split; [by rewrite Hmap | by constructor]. }
    exists data. by repeat split.
Qed.

(** An instance: the label [proj], no aliases, two entries. *)
Lemma empty_query_keeps_every_entry_witness :
  s "proj" ≠ [] ∧
  command_score (s "proj") (s "") None = Ok SCORE_PARTIAL.
Proof.
  assert (s "proj" ≠ []) as Hne by (vm_compute; discriminate).
  split; [exact Hne|].
  exact (proj1 (empty_query_keeps_every_entry (s "proj") None None [] Hne)).
Defined.

(** *** The sort *)

Lemma insort_Permutation (x : scored) (l : list scored) : insort x l ≡ₚ x :: l.
Proof.
  induction l as [|y l IH]; simpl; [done|].
  destruct (Qle_bool (score_ y) (score_ x)); [done|].
  rewrite IH. apply Permutation_swap.
Qed.

Lemma sorted_reverse_Permutation (data : list scored) :
  sorted_reverse data ≡ₚ data.
Proof.
  induction data as [|x data IH]; simpl; [done|].
  by rewrite insort_Permutation, IH.
Qed.

Lemma insort_descending (x : scored) (l : list scored) :
  StronglySorted descending l → StronglySorted descending (insort x l).
Proof.
  induction 1 as [|y l Hl IH Hy]; simpl.
  - repeat constructor.
  - destruct (Qle_bool (score_ y) (score_ x)) eqn:Hle.
    + apply Qle_bool_iff in Hle.
      constructor; [by constructor|].
      constructor; [done|].
      eapply Forall_impl; [exact Hy|]. intros z Hz. unfold descending in *.
      by apply Qle_trans with (score_ y).
    + constructor; [done|].
      rewrite insort_Permutation. constructor; [|done].
      unfold descending. apply Qlt_le_weak, Qgtb_true.
      unfold Qgtb. by rewrite Hle.
Qed.

Lemma sorted_reverse_descending (data : list scored) :
  StronglySorted descending (sorted_reverse data).
Proof.
  induction data as [|x data IH]; simpl; [constructor|].
  by apply insort_descending.
Qed.

(** Stability: inserting [x] puts it before the elements of its score,
    and leaves the elements of any other score as they were. *)
Lemma with_score_insort (v : Q) (x : scored) (l : list scored) :
  with_score v (insort x l) = with_score v (x :: l).
Proof.
  unfold with_score. induction l as [|y l IH]; simpl; [done|].
  destruct (Qle_bool (score_ y) (score_ x)) eqn:Hle; [done|].
  rewrite !filter_cons, IH, !filter_cons.
  destruct (decide (score_ y == v)%Q) as [Hy|Hy];
    destruct (decide (score_ x == v)%Q) as [Hx|Hx]; try done.
  exfalso. apply not_true_iff_false in Hle. apply Hle, Qle_bool_iff.
  rewrite Hy, Hx. apply Qle_refl.
Qed.

Lemma with_score_sorted_reverse (v : Q) (data : list scored) :
  with_score v (sorted_reverse data) = with_score v data.
Proof.
  induction data as [|x data IH]; simpl; [done|].
  rewrite with_score_insort. unfold with_score in *.
  by rewrite !filter_cons, IH.
Qed.

Lemma StronglySorted_take {A} (R : A → A → Prop) (n : nat) (l : list A) :
  StronglySorted R l → StronglySorted R (take n l).
Proof.
  intros Hl. revert n. induction Hl as [|x l Hl IH Hx]; intros [|n]; simpl;
    try constructor; [apply IH|].
  by apply Forall_take.
Qed.

(** C7. Whenever the ranker returns, its list has at most 15 elements and
    is in descending order of score (no element is followed, anywhere
    later, by one of a larger score).  It is made of elements of [data],
    the list that the loop of lines 332-344 fills in the order of the
    entries; and for every score [v], the returned elements of score [v]
    are, in this order, the first ones of the elements of [data] of
    score [v]: equal scores keep their order from before the sort. *)
Theorem rank_bounded_sorted_stable (prefer_type : option str) (query : str)
    (recents : list recent) (out : list scored) :
  rank prefer_type query recents = Ok out →
  (length out ≤ MAX_ITEMS)%nat ∧
  StronglySorted descending out ∧
  ∃ data,
    score_recents prefer_type query recents [] = Ok data ∧
    map recent_ data `sublist_of` recents ∧
    out ⊆+ data ∧
    ∀ v, with_score v out `prefix_of` with_score v data.
Proof.
  unfold rank.
  destruct (score_recents prefer_type query recents []) as [data| |] eqn:Hdata;
    cbn [mbind outcome_bind]; [|done..].
  intros [= <-]. split; [|split].
  - rewrite length_take. lia.
  - apply StronglySorted_take, sorted_reverse_descending.
  - exists data. split; [done|]. split; [by eapply score_recents_sublist|].
    split.
    + rewrite <- (sorted_reverse_Permutation data) at 2. apply submseteq_take.
    + intros v. rewrite <- (with_score_sorted_reverse v data).
      rewrite <- (take_drop MAX_ITEMS (sorted_reverse data)) at 2.
      unfold with_score. rewrite filter_app. by apply prefix_app_r.
Qed.

(** An instance of C7: the folder and the file ranked for the query [o]. *)
Lemma rank_bounded_sorted_stable_witness :
  (length Examples.ranked ≤ MAX_ITEMS)%nat ∧
  StronglySorted descending Examples.ranked.
Proof.
  pose proof (rank_bounded_sorted_stable None (s "o")
    [Examples.folder_recent; Examples.file_recent] Examples.ranked) as H.
  assert (rank None (s "o") [Examples.folder_recent; Examples.file_recent]
          = Ok Examples.ranked) as Hrank by (vm_compute; reflexivity).
  destruct (H Hrank) as (Hlen & Hsorted & _). by split.
Defined.

(** * Further properties *)

(** ** The scorer *)

(** X1. Whatever the string, the query and the aliases, [command_score]
    either returns a score or raises [IndexError]: the recursion and the
    loop end within the fuel they are given, and no other exception
    leaves the function. *)
Theorem command_score_returns_or_raises_index_error (string abbreviation : str)
    (aliases : option (list str)) :
  (∃ v, command_score string abbreviation aliases = Ok v) ∨
  command_score string abbreviation aliases = Raise IndexError.
Proof.
  pose proof (command_score_returns_or_index_error string abbreviation aliases)
    as H.
  destruct (command_score string abbreviation aliases) as [v|e|]; simpl in H.
  - left. by exists v.
  - right. by rewrite H.
  - done.
Qed.




(** When the character looked for also sits at a position [p] at or after
    [len(string)], the loop ends in [IndexError], at the latest when it
    reaches [p]. *)
Lemma while_index_beyond (string abbreviation : str) (aliases : list str)
    rec si ai c k index high memo (p : Z) :
  (∀ i m, (0 ≤ i)%Z → returns_or_index_error (rec i (ai + 1)%Z m)) →
  (0 ≤ ai < len abbreviation)%Z →
  (len string ≤ p)%Z →
  Scorer.lower_string string aliases !! Z.to_nat p = Some c →
  (0 ≤ si ≤ index)%Z → (index ≤ p)%Z →
  Scorer.lower_string string aliases !! Z.to_nat index = Some c →
  (len (Scorer.lower_string string aliases) - index ≤ Z.of_nat k)%Z →
  while_index string abbreviation aliases rec si ai c k index high memo
  = Raise IndexError.
Proof.
  intros Hrec Hai Hp Hpc. revert index high memo.
  assert (p < len (Scorer.lower_string string aliases))%Z as Hplt.
  { apply lookup_lt_Some in Hpc. unfold len in *. lia. }
  induction k as [|k IH]; intros index high memo Hsi Hidx Hc Hk; [lia|].
  rewrite while_index_step by lia.
  assert (0 ≤ index + 1)%Z as Hpos by lia.
  pose proof (Hrec (index + 1)%Z memo Hpos) as Hr.
  destruct (rec (index + 1)%Z (ai + 1)%Z memo) as [[t m]|e|];
    simpl in Hr; cbn [mbind outcome_bind]; [|by rewrite Hr|done].
  destruct (jump_Ok string aliases si index t) as [t1 ->]; [lia | lia |].
  cbn [mbind outcome_bind]. unfold case_penalty.
  destruct (Z.le_gt_cases (len string) index) as [Hout|Hin].
  { by rewrite (getitem_past_end string index) by lia. }
  destruct (getitem_in_range string index) as (x & -> & _); [lia|].
  destruct (getitem_in_range abbreviation ai) as (a & -> & _); [lia|].
  cbn [mbind outcome_bind].
  destruct (find_before (Scorer.lower_string string aliases) c
              (index + 1) p) as [Hnext Hfound]; [lia | done |].
  destruct (decide (x ≠ a)); cbn [mbind outcome_bind];
    apply IH; (lia || done).
Qed.

(** X4. When the first character of the query occurs, whatever its case,
    in what line 47 appends to the string (the separating space and the
    aliases), [command_score] raises [IndexError]: the loop of
    [score(0, 0)] goes through every occurrence and indexes the original
    string at the first one past its end.  In particular every query that
    starts with a space raises, with or without aliases. *)
Theorem command_score_first_char_in_aliases_raises (string rest : str)
    (a : ascii) (aliases : option (list str)) :
  lower_char a ∈ lower (s " " ++ join (s " ") (default [] aliases)) →
  command_score string (a :: rest) aliases = Raise IndexError.
Proof.
  intros Hin. unfold command_score.
  set (al := default [] aliases) in *.
  apply list_elem_of_lookup in Hin as [n Hn].
  assert (Scorer.lower_string string al
          !! Z.to_nat (len string + Z.of_nat n) = Some (lower_char a)) as Hp.
  { unfold Scorer.lower_string, lower in *. rewrite map_app.
    rewrite lookup_app_r; rewrite length_map; unfold len; [|lia].
    rewrite <- Hn. f_equal. lia. }
  pose proof (lookup_lt_Some _ _ _ Hp) as Hplt.
  rewrite score_step; [|apply lookup_empty|unfold len; simpl; lia].
  change (getitem (lower_abbreviation (a :: rest)) 0) with (Ok (lower_char a)).
  cbn [mbind outcome_bind].
  destruct (find_before (Scorer.lower_string string al) (lower_char a) 0
              (len string + Z.of_nat n)) as [Hr Hf];
    [unfold len; lia | done |].
  rewrite (while_index_beyond string (a :: rest) al _ 0 0 (lower_char a) _ _ _ _
             (len string + Z.of_nat n)); [done|..]; try done;
    try (unfold len in *; simpl; lia).
  intros i m Hi. apply score_returns_or_index_error; unfold len; simpl; lia.
Qed.

Lemma command_score_first_char_in_aliases_raises_witness :
  command_score (s "notes.txt") (s "vim") (Some [s "editor"; s "vi"])
  = Raise IndexError.
Proof.
  apply command_score_first_char_in_aliases_raises.
  apply list_elem_of_In. vm_compute.
  repeat (first [left; reflexivity | right]).
Defined.

(** ** The resolver *)

Lemma init_find (fs : filesystem) :
  init fs = match List.find (usable fs) candidates with
            | Some c => resolved fs c
            | None => unresolved
            end.
Proof.
  unfold init. rewrite for_return_nested.
  rewrite (for_return_find _ _ (usable fs) (resolved fs)).
  - by destruct (List.find _ _).
  - intros [dir variant]. apply try_variant_usable.
Qed.

(** X5. [Code()] is never half resolved.  Either the four fields are all
    [None]; or they are set together from one pair of the candidates:
    the executable and the configuration directory exist, [storage.json]
    exists in [User/globalStorage] below that directory, and
    [global_state_db] is the path of [state.vscdb] beside it (which need
    not exist). *)
Theorem init_all_or_nothing (fs : filesystem) :
  init fs = unresolved ∨
  ∃ dir variant,
    (dir, variant) ∈ candidates ∧
    installed_path (init fs) = Some (dir /: lower variant) ∧
    config_path (init fs) = Some (config_of fs variant) ∧
    storage_json (init fs)
      = Some (store_dir (config_of fs variant) /: s "storage.json") ∧
    global_state_db (init fs)
      = Some (store_dir (config_of fs variant) /: s "state.vscdb") ∧
    path_exists fs (dir /: lower variant) = true ∧
    path_exists fs (config_of fs variant) = true ∧
    path_exists fs (store_dir (config_of fs variant) /: s "storage.json")
      = true.
Proof.
  rewrite init_find.
  destruct (List.find (usable fs) candidates) as [[dir variant]|] eqn:Hfind;
    [|by left].
  right. exists dir, variant. apply find_some in Hfind as [Hin Hok].
  split; [by apply list_elem_of_In|]. do 4 (split; [done|]).
  unfold usable in Hok. simpl in Hok.
  by repeat (apply andb_prop in Hok as [Hok ?]).
Qed.

(** ** The loader and its cache *)

Lemma load_primary_settings (w : world) (self : Code) (st : state) :
  settings (load_primary w self st).2 = settings st.
Proof.
  unfold load_primary, get_recents_global_state.
  destruct (global_state_db self) as [db|]; simpl; [|done].
  destruct (path_exists (fs w) db); [|done].
  destruct (read_global_state w db ≫= _) as [r|e|]; try done.
  by destruct (attr_exists w (storage_json self)) as [[]| |].
Qed.

Lemma load_legacy_settings (w : world) (self : Code) (recents : list recent)
    (st : state) :
  settings (load_legacy w self recents st).2 = settings st.
Proof.
  unfold load_legacy, get_recents_legacy.
  destruct (truthy recents); [done|].
  destruct (storage_json self) as [file|]; simpl; [|done].
  by destruct (path_exists (fs w) file).
Qed.

(** X6. A call of [get_recents] that raises, whatever raises and from
    whichever store, leaves [_cached_recents], [_cache_timestamp] and
    [include_types] as they were: the cache only changes when a reload
    succeeds. *)
Theorem get_recents_failure_keeps_cache (w : world) (self : Code) (st st' : state)
    (now load_time : Q) (e : exn) :
  get_recents w self now load_time st = (Raise e, st') →
  cached_recents st' = cached_recents st ∧
  cache_timestamp st' = cache_timestamp st ∧
  include_types st' = include_types st.
Proof.
  unfold get_recents. destruct (cache_lookup now st); [done|].
  unfold reload.
  pose proof (load_primary_settings w self st) as Hp.
  destruct (load_primary w self st) as [[recents|e1|] st1]; simpl in Hp;
    [|intros [= _ <-]; by injection Hp|done].
  pose proof (load_legacy_settings w self recents st1) as Hl.
  destruct (load_legacy w self recents st1) as [[out|e2|] st2]; simpl in Hl;
    [done| |done].
  intros [= _ <-]. rewrite Hp in Hl. by injection Hl.
Qed.

(** An instance: the legacy file is all there is, and cannot be read. *)
Lemma get_recents_failure_keeps_cache_witness :
  let w := {| fs := Examples.fs_legacy_only;
              read_global_state := λ _, Ok [];
              read_storage_json := λ _, Raise (OSError 13) |} in
  let st' := (get_recents w Examples.code 200 201 Examples.st_loaded).2 in
  cached_recents st' = cached_recents Examples.st_loaded ∧
  cache_timestamp st' = cache_timestamp Examples.st_loaded ∧
  include_types st' = include_types Examples.st_loaded.
Proof.
  intros w st'.
  apply (get_recents_failure_keeps_cache w Examples.code Examples.st_loaded
           st' 200 201 (OSError 13)).
  vm_compute. reflexivity.
Defined.

(** X7. A reload that succeeds stores what it returns together with the
    clock reading of line 208; if the list is non-empty, every later call
    made less than sixty seconds after that reading returns the same list
    and reads nothing. *)
Theorem get_recents_reload_then_cached (w : world) (self : Code) (st st' : state)
    (now load_time : Q) (recents : list recent) :
  cache_lookup now st = None →
  get_recents w self now load_time st = (Ok recents, st') →
  cached_recents st' = Some recents ∧
  cache_timestamp st' = load_time ∧
  include_types st' = include_types st ∧
  (recents ≠ [] →
   ∀ now' load_time', (now' - load_time < _cache_duration)%Q →
     get_recents w self now' load_time' st' = (Ok recents, st')).
Proof.
  intros Hmiss. unfold get_recents at 1. rewrite Hmiss. unfold reload.
  pose proof (load_primary_settings w self st) as Hp.
  destruct (load_primary w self st) as [[first|e1|] st1]; simpl in Hp;
    [|done..].
  pose proof (load_legacy_settings w self first st1) as Hl.
  destruct (load_legacy w self first st1) as [[out|e2|] st2]; simpl in Hl;
    [|done..].
  intros [= <- <-]. rewrite Hp in Hl. injection Hl as _ _ Hinc.
  split; [done|]. split; [done|]. split; [done|].
  intros Hne now' load_time' Hfresh. unfold get_recents.
  by rewrite (proj2 (cache_lookup_Some now' (update_cache out load_time st2)
                       out)).
Qed.

(** An instance: the first call after start-up, then a call at time 30. *)
Lemma get_recents_reload_then_cached_witness :
  let st0 := set_include_types (s "folder,file") initial in
  let st1 := (get_recents Examples.w_both Examples.code 0 1 st0).2 in
  get_recents Examples.w_both Examples.code 30 31 st1
  = (Ok [Examples.folder_recent; Examples.file_recent], st1).
Proof.
  intros st0 st1.
  refine (proj2 (proj2 (proj2 (get_recents_reload_then_cached
    Examples.w_both Examples.code st0 st1 0 1
    [Examples.folder_recent; Examples.file_recent] _ _))) _ 30%Q 31%Q _).
  - reflexivity.
  - vm_compute. reflexivity.
  - discriminate.
  - reflexivity.
Defined.

(** X8. One call of [get_recents] reads the primary store at most once and
    the legacy store at most once, the primary store first; a call
    answered from the cache reads nothing. *)
Theorem get_recents_reads (w : world) (self : Code) (st : state)
    (now load_time : Q) (db file : path) :
  global_state_db self = Some db → storage_json self = Some file →
  ∃ reads,
    trace (get_recents w self now load_time st).2 = trace st ++ reads ∧
    reads `sublist_of` [ReadGlobalState db; ReadStorageJson file] ∧
    (is_Some (cache_lookup now st) → reads = []).
Proof.
  intros Hdb Hfile. unfold get_recents.
  destruct (cache_lookup now st) as [cached|].
  { exists []. rewrite app_nil_r. split; [done|]. split; [|done].
    apply sublist_nil_l. }
  assert (∀ pre : list io_event,
    pre `sublist_of` [ReadGlobalState db] →
    pre `sublist_of` [ReadGlobalState db; ReadStorageJson file] ∧
    pre ++ [ReadStorageJson file]
      `sublist_of` [ReadGlobalState db; ReadStorageJson file]) as Hboth.
  { intros pre Hsub. split.
    - by apply (sublist_inserts_r [ReadStorageJson file]) in Hsub.
    - by apply (sublist_app _ _ [ReadStorageJson file]
                  [ReadStorageJson file]) in Hsub. }
  assert (∀ (first : list recent) (st1 : state) (pre : list io_event),
    trace st1 = trace st ++ pre →
    pre `sublist_of` [ReadGlobalState db] →
    ∃ reads,
      trace (match load_legacy w self first st1 with
             | (Ok out, st2) => (Ok out, update_cache out load_time st2)
             | failed => failed
             end).2 = trace st ++ reads ∧
      reads `sublist_of` [ReadGlobalState db; ReadStorageJson file]) as Hleg.
  { intros first st1 pre Hpre Hsub. destruct (Hboth pre Hsub) as [H1 H2].
    unfold load_legacy, get_recents_legacy. rewrite Hfile. simpl.
    destruct (truthy first); [|destruct (path_exists (fs w) file)].
    - by exists pre.
    - exists (pre ++ [ReadStorageJson file]). split; [|done].
      destruct (read_storage_json w file ≫= _); simpl;
        by rewrite Hpre, <- app_assoc.
    - by exists pre. }
  assert (∀ r : outcome (list recent) * state,
    (∃ reads, trace r.2 = trace st ++ reads ∧
       reads `sublist_of` [ReadGlobalState db; ReadStorageJson file]) →
    ∃ reads, trace r.2 = trace st ++ reads ∧
       reads `sublist_of` [ReadGlobalState db; ReadStorageJson file] ∧
       (is_Some (@None (list recent)) → reads = [])) as Hwrap.
  { intros r (reads & ? & ?). exists reads. split; [done|]. split; [done|].
    by intros [? ?]. }
  apply Hwrap. unfold reload, load_primary, get_recents_global_state.
  rewrite Hdb, Hfile. simpl.
  destruct (Hboth [ReadGlobalState db]) as [Hone _]; [done|].
  destruct (path_exists (fs w) db).
  - destruct (read_global_state w db ≫= _) as [first|e|].
    + by apply (Hleg first _ [ReadGlobalState db]).
    + destruct (path_exists (fs w) file).
      * by apply (Hleg [] _ [ReadGlobalState db]).
      * by exists [ReadGlobalState db].
    + by exists [ReadGlobalState db].
  - apply (Hleg [] st []); [by rewrite app_nil_r | apply sublist_nil_l].
Qed.

Lemma get_recents_reads_witness :
  ∃ reads,
    trace (get_recents Examples.w_both Examples.code 200 201
             Examples.st_loaded).2 = trace Examples.st_loaded ++ reads ∧
    reads `sublist_of`
      [ReadGlobalState Examples.db; ReadStorageJson Examples.legacy] ∧
    (is_Some (cache_lookup 200 Examples.st_loaded) → reads = []).
Proof.
  apply (get_recents_reads Examples.w_both Examples.code Examples.st_loaded
           200 201 Examples.db Examples.legacy); reflexivity.
Defined.

(** X9. With both stores in place and the primary store read without
    error: when it yields at least one entry of the configured types the
    legacy file is left alone and the entries are cached; when it yields
    none, the legacy file is read and decides the outcome of the call. *)
Theorem legacy_read_when_primary_is_empty (w : world) (self : Code)
    (st : state) (load_time : Q) (db file : path) (first : list recent) :
  global_state_db self = Some db → storage_json self = Some file →
  path_exists (fs w) db = true → path_exists (fs w) file = true →
  (get_recents_global_state w self st).1 = Ok first →
  let st1 := record_io (ReadGlobalState db) st in
  reload w self load_time st
  = if truthy first then (Ok first, update_cache first load_time st1)
    else match get_recents_legacy w self st1 with
         | (Ok out, st2) => (Ok out, update_cache out load_time st2)
         | failed => failed
         end.
Proof.
  intros Hdb Hfile Hexdb Hexfile Hfirst st1.
  assert (get_recents_global_state w self st = (Ok first, st1)) as Hgs.
  { revert Hfirst. unfold get_recents_global_state. rewrite Hdb. simpl.
    by intros ->. }
  unfold reload, load_primary. rewrite Hdb. simpl. rewrite Hexdb, Hgs.
  unfold load_legacy. destruct (truthy first); [done|].
  rewrite Hfile. simpl. by rewrite Hexfile.
Qed.

(** An instance: only workspaces are configured, the primary store has
    none, and the (empty) legacy file is read. *)
Lemma legacy_read_when_primary_is_empty_witness :
  let st := set_include_types (s "workspace") initial in
  reload Examples.w_both Examples.code 1 st
  = (Ok [], update_cache [] 1
              (record_io (ReadStorageJson Examples.legacy)
                 (record_io (ReadGlobalState Examples.db) st))).
Proof.
  intros st.
  rewrite (legacy_read_when_primary_is_empty Examples.w_both Examples.code
             st 1 Examples.db Examples.legacy []); reflexivity.
Defined.

(** *** Normalisation of the records *)

Lemma parse_entries_acc (entries : list raw_entry) (recents : list recent) :
  parse_entries entries recents
  = new ← parse_entries entries []; Ok (recents ++ new).
Proof.
  revert recents. induction entries as [|path entries IH]; intros recents.
  - simpl. by rewrite app_nil_r.
  - simpl. destruct (parse_entry path) as [x| |]; cbn [mbind outcome_bind];
      [|done..].
    rewrite IH. symmetry. rewrite IH.
    destruct (parse_entries entries []) as [new| |];
      cbn [mbind outcome_bind]; [|done..].
    destruct x; simpl; by rewrite <- ?app_assoc.
Qed.

Lemma parse_entries_app (a b : list raw_entry) :
  parse_entries (a ++ b) []
  = ra ← parse_entries a []; rb ← parse_entries b []; Ok (ra ++ rb).
Proof.
  induction a as [|path a IH]; simpl.
  - by destruct (parse_entries b []).
  - destruct (parse_entry path) as [x| |]; cbn [mbind outcome_bind];
      [|done..].
    rewrite (parse_entries_acc (a ++ b)), (parse_entries_acc a), IH.
    destruct (parse_entries a []) as [ra| |]; cbn [mbind outcome_bind];
      [|done..].
    destruct (parse_entries b []) as [rb| |]; cbn [mbind outcome_bind];
      [|done..].
    by rewrite app_assoc.
Qed.

(** X10. Normalisation goes record by record: for a configured list of
    types, the entries of two arrays put end to end are the entries of the
    first followed by the entries of the second, and an exception of the
    first comes before one of the second. *)
Theorem parse_entry_paths_app (a b : list raw_entry) (tys : list str) :
  parse_entry_paths (a ++ b) (Some tys)
  = ra ← parse_entry_paths a (Some tys);
    rb ← parse_entry_paths b (Some tys);
    Ok (ra ++ rb).
Proof.
  unfold parse_entry_paths. rewrite parse_entries_app.
  destruct (parse_entries a []) as [ra| |]; cbn [mbind outcome_bind];
    [|done..].
  destruct (parse_entries b []) as [rb| |]; cbn [mbind outcome_bind];
    [|done..].
  unfold type_filter. by rewrite filter_app.
Qed.

(** X11. A record with none of the keys [folderUri], [fileUri] and
    [workspace] is skipped, whatever else it holds: the array gives what it
    gives without that record, entries and exceptions alike. *)
Theorem parse_entry_paths_skips_unrecognized (pre post : list raw_entry)
    (junk : raw_entry) (include : option (list str)) :
  folderUri junk = None → fileUri junk = None → workspace junk = None →
  parse_entry_paths (pre ++ junk :: post) include
  = parse_entry_paths (pre ++ post) include.
Proof.
  intros Hfolder Hfile Hws. unfold parse_entry_paths.
  rewrite !parse_entries_app.
  assert (parse_entries (junk :: post) [] = parse_entries post []) as ->;
    [|done].
  simpl. unfold parse_entry. by rewrite Hfolder, Hfile, Hws.
Qed.

Lemma parse_entry_paths_skips_unrecognized_witness :
  parse_entry_paths
    ([Examples.folder_raw]
     ++ {| folderUri := None; fileUri := None; workspace := None;
           raw_label := Some (s "stray") |} :: [Examples.file_raw])
    (Some [s "file"])
  = parse_entry_paths ([Examples.folder_raw] ++ [Examples.file_raw])
      (Some [s "file"]).
Proof. by apply parse_entry_paths_skips_unrecognized. Defined.

Lemma parse_entry_kind (path : raw_entry) (r : recent) :
  parse_entry path = Ok (Some r) →
  (type_ r, icon r, option_ r)
  ∈ [(s "folder", s "icon", s "--folder-uri");
     (s "file", s "file", s "--file-uri");
     (s "workspace", s "workspace", s "--file-uri")].
Proof.
  unfold parse_entry.
  destruct (folderUri path) as [u|]; [|destruct (fileUri path) as [u|];
    [|destruct (workspace path) as [ws|]; [destruct (ws !! _) as [u|]|]]];
    cbn [mbind outcome_bind]; try done.
  all: destruct (match raw_label path with Some _ => _ | None => _ end)
         as [lbl| |]; cbn [mbind outcome_bind]; [|done..];
       intros [= <-]; simpl; set_solver.
Qed.

Lemma parse_entries_Forall (P : recent → Prop) (entries : list raw_entry)
    (out : list recent) :
  (∀ path r, path ∈ entries → parse_entry path = Ok (Some r) → P r) →
  parse_entries entries [] = Ok out → Forall P out.
Proof.
  revert out. induction entries as [|path entries IH]; intros out HP.
  - simpl. by intros [= <-].
  - simpl. destruct (parse_entry path) as [x| |] eqn:Hx;
      cbn [mbind outcome_bind]; [|done..].
    rewrite parse_entries_acc.
    destruct (parse_entries entries []) as [new| |] eqn:Hnew;
      cbn [mbind outcome_bind]; [|done..].
    intros [= <-]. apply Forall_app. split.
    + destruct x as [r|]; [|done]. repeat constructor.
      apply (HP path); [by left | done].
    + apply IH; [|done]. intros p r Hp. apply HP. by right.
Qed.

Lemma parse_entry_paths_Forall_kind (entries : list raw_entry)
    (include : option (list str)) (out : list recent) :
  parse_entry_paths entries include = Ok out →
  Forall (λ r, (type_ r, icon r, option_ r)
               ∈ [(s "folder", s "icon", s "--folder-uri");
                  (s "file", s "file", s "--file-uri");
                  (s "workspace", s "workspace", s "--file-uri")]) out.
Proof.
  unfold parse_entry_paths.
  destruct (parse_entries entries []) as [recents| |] eqn:Hparse;
    cbn [mbind outcome_bind]; [|done..].
  intros Hfilter.
  assert (Forall (λ r, (type_ r, icon r, option_ r)
               ∈ [(s "folder", s "icon", s "--folder-uri");
                  (s "file", s "file", s "--file-uri");
                  (s "workspace", s "workspace", s "--file-uri")]) recents)
    as Hall.
  { eapply parse_entries_Forall; [|done].
    intros path r _. apply parse_entry_kind. }
  revert Hfilter. unfold type_filter. destruct include as [tys|].
  - intros [= <-]. apply Forall_forall. intros r Hr.
    apply list_elem_of_filter in Hr as [_ Hr].
    by apply (proj1 (Forall_forall _ _) Hall).
  - destruct recents; [|done]. by intros [= <-].
Qed.

(** X12. Whatever the array, every entry that normalisation returns is of
    one of three kinds, and its icon and its command line option are the
    ones of its kind: folder with [icon] and [--folder-uri], file with
    [file] and [--file-uri], workspace with [workspace] and
    [--file-uri]. *)
Theorem parse_entry_paths_kinds (entries : list raw_entry)
    (include : option (list str)) (out : list recent) :
  parse_entry_paths entries include = Ok out →
  Forall (λ r, (type_ r, icon r, option_ r)
               ∈ [(s "folder", s "icon", s "--folder-uri");
                  (s "file", s "file", s "--file-uri");
                  (s "workspace", s "workspace", s "--file-uri")]) out.
Proof. apply parse_entry_paths_Forall_kind. Qed.

Lemma parse_entry_paths_kinds_witness :
  Forall (λ r, (type_ r, icon r, option_ r)
               ∈ [(s "folder", s "icon", s "--folder-uri");
                  (s "file", s "file", s "--file-uri");
                  (s "workspace", s "workspace", s "--file-uri")])
    [Examples.folder_recent; Examples.file_recent].
Proof.
  apply (parse_entry_paths_kinds [Examples.folder_raw; Examples.file_raw]
           (Some [s "folder"; s "file"])).
  vm_compute. reflexivity.
Defined.

Lemma parse_entry_raises_KeyError (path : raw_entry) :
  match parse_entry path with
  | Ok _ => True
  | Raise e => e = KeyError
  | Timeout => False
  end.
Proof.
  unfold parse_entry.
  destruct (folderUri path) as [u|]; [|destruct (fileUri path) as [u|];
    [|destruct (workspace path) as [ws|]; [destruct (ws !! _) as [u|]|]]];
    cbn [mbind outcome_bind]; try done.
  all: destruct (raw_label path); cbn [mbind outcome_bind]; [done|];
       by destruct (split_last "/" u) as (pre & seg & -> & _).
Qed.

(** X13. A [workspace] record without [configPath] (and without
    [folderUri] and [fileUri]) is not skipped: wherever it stands in the
    array, and whatever the configured types, normalisation raises
    [KeyError] and returns no entry at all. *)
Theorem parse_entry_paths_workspace_without_configPath
    (entries : list raw_entry) (bad : raw_entry) (ws : gmap str str)
    (include : option (list str)) :
  bad ∈ entries →
  folderUri bad = None → fileUri bad = None →
  workspace bad = Some ws → ws !! s "configPath" = None →
  parse_entry_paths entries include = Raise KeyError.
Proof.
  intros Hin Hfolder Hfile Hws Hcfg. unfold parse_entry_paths.
  assert (parse_entries entries [] = Raise KeyError) as ->; [|done].
  induction entries as [|path entries IH]; [by apply elem_of_nil in Hin|].
  simpl. apply elem_of_cons in Hin as [<-|Hin].
  - unfold parse_entry. by rewrite Hfolder, Hfile, Hws, Hcfg.
  - pose proof (parse_entry_raises_KeyError path) as Hpath.
    destruct (parse_entry path) as [x|e|]; cbn [mbind outcome_bind];
      [|by rewrite Hpath|done].
    rewrite parse_entries_acc, IH; done.
Qed.

Lemma parse_entry_paths_workspace_without_configPath_witness :
  parse_entry_paths
    [Examples.folder_raw;
     {| folderUri := None; fileUri := None;
        workspace := Some {[ s "id" := s "1f3a" ]}; raw_label := None |};
     Examples.file_raw]
    (Some [s "folder"; s "file"])
  = Raise KeyError.
Proof.
  apply (parse_entry_paths_workspace_without_configPath _
           {| folderUri := None; fileUri := None;
              workspace := Some {[ s "id" := s "1f3a" ]};
              raw_label := None |} {[ s "id" := s "1f3a" ]});
    [| reflexivity | reflexivity | reflexivity | reflexivity].
  apply list_elem_of_In. right. left. reflexivity.
Defined.

(** X14. The configured names are compared as they stand: when none of
    them is exactly [folder], [file] or [workspace] (an empty preference
    gives the one name [""], a space after a comma stays in the name),
    normalisation returns no entry. *)
Theorem parse_entry_paths_unknown_types (entries : list raw_entry)
    (tys : list str) (out : list recent) :
  Forall (λ ty, ty ∉ [s "folder"; s "file"; s "workspace"]) tys →
  parse_entry_paths entries (Some tys) = Ok out →
  out = [].
Proof.
  intros Hunknown Hparse.
  destruct out as [|r out]; [done|]. exfalso.
  assert (r ∈ r :: out) as Hr by (by left).
  destruct (parse_entry_paths_types _ _ _ r Hparse Hr) as (? & [= <-] & Hty).
  pose proof (parse_entry_paths_Forall_kind _ _ _ Hparse) as Hkinds.
  apply Forall_cons in Hkinds as [Hkind _].
  apply (proj1 (Forall_forall _ _) Hunknown _ Hty).
  apply list_elem_of_In in Hkind. apply list_elem_of_In. simpl in *.
  destruct Hkind as [Hk|[Hk|[Hk|[]]]]; injection Hk as Hk _ _; tauto.
Qed.

Lemma parse_entry_paths_unknown_types_witness :
  parse_entry_paths [Examples.folder_raw; Examples.file_raw]
    (Some (split "," (s ""))) = Ok [] ∧
  @nil recent = [].
Proof.
  assert (parse_entry_paths [Examples.folder_raw; Examples.file_raw]
            (Some (split "," (s ""))) = Ok []) as Hparse
    by (vm_compute; reflexivity).
  split; [exact Hparse|].
  refine (parse_entry_paths_unknown_types _ _ _ _ Hparse).
  repeat constructor. intros H.
  apply list_elem_of_In in H. simpl in H.
  destruct H as [H|[H|[H|[]]]]; discriminate.
Defined.

(** ** Launching the editor *)

Lemma exclude_lookup (current_env : gmap str str) (env_var k : str) :
  exclude current_env env_var !! k
  = if decide (k = strip env_var) then None else current_env !! k.
Proof.
  unfold exclude.
  destruct (decide (is_Some (current_env !! strip env_var))) as [Hin|Hout].
  - destruct (decide (k = strip env_var)) as [->|Hne].
    + apply lookup_delete_eq.
    + by apply lookup_delete_ne.
  - destruct (decide (k = strip env_var)) as [->|Hne]; [|done].
    by apply eq_None_not_Some.
Qed.

Lemma foldl_exclude_lookup (names : list str) (current_env : gmap str str)
    (k : str) :
  foldl exclude current_env names !! k
  = if decide (k ∈ strip <$> names) then None else current_env !! k.
Proof.
  revert current_env. induction names as [|name names IH]; intros current_env.
  - simpl. destruct (decide (k ∈ [])) as [H|_]; [|done].
    by apply elem_of_nil in H.
  - simpl. rewrite IH, exclude_lookup.
    destruct (decide (k ∈ strip <$> names)) as [Hin|Hout].
    + rewrite decide_True; [done | by right].
    + destruct (decide (k = strip name)) as [->|Hne].
      * rewrite decide_True; [done | by left].
      * rewrite decide_False; [done|].
        intros [?|?]%elem_of_cons; done.
Qed.

(** X15. When the editor is installed, [open_vscode] starts it with the
    executable, the option and the location of the entry, in an
    environment that is the caller's without the variables named in
    [excluded_env_vars]: the names are the pieces between commas with the
    white space around them removed; a variable so named is absent from
    the environment of the process, and every other variable has the value
    it has in the caller's.  With no list, or an empty one, the
    environment is the caller's. *)
Theorem open_vscode_environment (self : Code) (recent : recent)
    (excluded_env_vars : option str) (environ : gmap str str) :
  is_installed self = true →
  ∃ exe p,
    installed_path self = Some exe ∧
    open_vscode self recent excluded_env_vars environ = Some p ∧
    args p = [exe; option_ recent; uri recent] ∧
    ∀ k, env p !! k
         = if decide (k ∈ strip <$>
                        match excluded_env_vars with
                        | Some (c :: names) => split "," (c :: names)
                        | _ => []
                        end)
           then None else environ !! k.
Proof.
  intros Hinst. unfold open_vscode. rewrite Hinst. simpl.
  unfold is_installed in Hinst. apply bool_decide_eq_true in Hinst as [exe Hexe].
  rewrite Hexe. simpl. eexists _, _. split; [done|]. split; [done|].
  split; [done|]. simpl. intros k. unfold child_env.
  destruct excluded_env_vars as [[|c names]|]; simpl truthy; cbv iota.
  - rewrite decide_False; [done | apply not_elem_of_nil].
  - apply foldl_exclude_lookup.
  - rewrite decide_False; [done | apply not_elem_of_nil].
Qed.

(** An instance: two names, the second written after a space. *)
Lemma open_vscode_environment_witness :
  ∃ exe p,
    installed_path Examples.code = Some exe ∧
    open_vscode Examples.code Examples.folder_recent
      (Some (s "GTK_PATH, LD_PRELOAD"))
      {[ s "HOME" := s "/home/u"; s "LD_PRELOAD" := s "/opt/x.so" ]}
    = Some p ∧
    args p = [exe; option_ Examples.folder_recent;
              uri Examples.folder_recent] ∧
    ∀ k, env p !! k
         = if decide (k ∈ strip <$> split "," (s "GTK_PATH, LD_PRELOAD"))
           then None
           else ({[ s "HOME" := s "/home/u";
                    s "LD_PRELOAD" := s "/opt/x.so" ]} : gmap str str) !! k.
Proof.
  apply (open_vscode_environment Examples.code Examples.folder_recent
           (Some (s "GTK_PATH, LD_PRELOAD"))).
  vm_compute. reflexivity.
Defined.

(** ** The ranker *)

Lemma score_recent_kept (prefer_type : option str) (query : str)
    (r : recent) (d : scored) :
  score_recent prefer_type query r = Ok (Some d) →
  recent_ d = r ∧ (THRESHOLD < score_ d)%Q.
Proof.
  unfold score_recent.
  destruct (command_score (label r) query None) as [ls| |];
    cbn [mbind outcome_bind]; [|done..].
  destruct (command_score (uri r) query None) as [us| |];
    cbn [mbind outcome_bind]; [|done..].
  set (ls' := if preferred prefer_type r then (ls * PREFER_BOOST)%Q else ls).
  destruct (Qgtb ls' THRESHOLD) eqn:Hl, (Qgtb us THRESHOLD) eqn:Hu;
    simpl; [| | |done]; intros [= <-]; (split; [done|]); simpl;
    unfold max; destruct (Qgtb us ls') eqn:Hm;
    rewrite ?Qgtb_true in *; try done.
  - apply not_true_iff_false in Hu. rewrite Qgtb_true in Hu.
    apply Qnot_lt_le in Hu. by apply Qlt_trans with ls'.
  - apply not_true_iff_false in Hm. rewrite Qgtb_true in Hm.
    apply Qnot_lt_le in Hm. by apply Qlt_le_trans with us.
Qed.

Lemma score_recents_Forall (P : scored → Prop) (prefer_type : option str)
    (query : str) (recents : list recent) (data : list scored) :
  (∀ r d, r ∈ recents → score_recent prefer_type query r = Ok (Some d) →
          P d) →
  score_recents prefer_type query recents [] = Ok data → Forall P data.
Proof.
  revert data. induction recents as [|r recents IH]; intros data HP.
  - simpl. by intros [= <-].
  - simpl. destruct (score_recent prefer_type query r) as [x| |] eqn:Hx;
      cbn [mbind outcome_bind]; [|done..].
    rewrite score_recents_acc.
    destruct (score_recents prefer_type query recents []) as [new| |];
      cbn [mbind outcome_bind]; [|done..].
    intros [= <-]. apply Forall_app. split.
    + destruct x as [d|]; [|done]. repeat constructor.
      apply (HP r); [by left | done].
    + apply IH; [|done]. intros r' d Hr'. apply HP. by right.
Qed.

(** X16. Whenever the ranker returns, each element of its list carries one
    of the given entries and a score above the threshold 0.1: no entry is
    made up and none below the threshold gets through. *)
Theorem rank_keeps_entries_above_threshold (prefer_type : option str)
    (query : str) (recents : list recent) (out : list scored) :
  rank prefer_type query recents = Ok out →
  Forall (λ d, recent_ d ∈ recents ∧ (THRESHOLD < score_ d)%Q) out.
Proof.
  unfold rank.
  destruct (score_recents prefer_type query recents []) as [data| |] eqn:Hdata;
    cbn [mbind outcome_bind]; [|done..].
  intros [= <-]. apply Forall_take.
  rewrite sorted_reverse_Permutation.
  eapply score_recents_Forall; [|done].
  intros r d Hr Hd. apply score_recent_kept in Hd as [-> Hd]. by split.
Qed.

Lemma rank_keeps_entries_above_threshold_witness :
  Forall (λ d, recent_ d ∈ [Examples.folder_recent; Examples.file_recent] ∧
               (THRESHOLD < score_ d)%Q) Examples.ranked.
Proof.
  apply (rank_keeps_entries_above_threshold None (s "o")).
  vm_compute. reflexivity.
Defined.

Lemma lower_char_idempotent (c : ascii) :
  lower_char (lower_char c) = lower_char c.
Proof. by destruct c as [[] [] [] [] [] [] [] []]. Qed.

Lemma lower_idempotent (x : str) : lower (lower x) = lower x.
Proof.
  unfold lower. rewrite map_map. apply map_ext, lower_char_idempotent.
Qed.

(** X17. The case of the query does not matter: a query and its
    lower-cased form give the same result, the same exception and the
    same state. *)
Theorem get_ext_result_items_lowers_query (w : world) (code : Code)
    (prefer_type : option str) (query : str) (now load_time : Q)
    (st : state) :
  get_ext_result_items w code prefer_type query now load_time st
  = get_ext_result_items w code prefer_type (lower query) now load_time st.
Proof.
  unfold get_ext_result_items. rewrite lower_idempotent.
  by destruct query.
Qed.

(** A list in descending order of score is left as it is by the sort. *)
Lemma sorted_reverse_descending_id (data : list scored) :
  StronglySorted descending data → sorted_reverse data = data.
Proof.
  induction 1 as [|x data Hdata IH Hx]; simpl; [done|].
  rewrite IH. destruct data as [|y data]; simpl; [done|].
  apply Forall_cons in Hx as [Hy _]. unfold descending in Hy.
  by rewrite (proj2 (Qle_bool_iff _ _) Hy).
Qed.

(** X18. With the empty query and no preferred type, entries whose label
    and location are non-empty come out in the order of the source, the
    most recent first, each with the score 0.99, and cut after the
    fifteenth. *)
Theorem rank_empty_query_source_order (recents : list recent) :
  Forall (λ r, label r ≠ [] ∧ uri r ≠ []) recents →
  rank None (s "") recents
  = Ok (take MAX_ITEMS
          ((λ r, {| recent_ := r; score_ := SCORE_PARTIAL |}) <$> recents)).
Proof.
  intros Hall. unfold rank.
  assert (score_recents None (s "") recents []
          = Ok ((λ r, {| recent_ := r; score_ := SCORE_PARTIAL |})
                <$> recents)) as ->.
  { induction Hall as [|r recents [Hl Hu] _ IH]; [done|].
    cbn [score_recents].
    assert (score_recent None (s "") r
            = Ok (Some {| recent_ := r; score_ := SCORE_PARTIAL |})) as ->.
    { unfold score_recent. rewrite !command_score_empty_query.
      destruct (label r) as [|c1 l]; [done|].
      destruct (uri r) as [|c2 u]; [done|]. vm_compute. reflexivity. }
    cbn [mbind outcome_bind]. rewrite score_recents_acc, IH. done. }
  cbn [mbind outcome_bind]. f_equal. f_equal.
  apply sorted_reverse_descending_id.
  clear. induction recents as [|r recents IH]; [constructor|].
  simpl. constructor; [done|].
  apply Forall_fmap, Forall_forall. intros r' _. unfold descending. simpl.
  apply Qle_refl.
Qed.

Lemma rank_empty_query_source_order_witness :
  rank None (s "") [Examples.file_recent; Examples.folder_recent]
  = Ok [ {| recent_ := Examples.file_recent; score_ := SCORE_PARTIAL |};
         {| recent_ := Examples.folder_recent; score_ := SCORE_PARTIAL |} ].
Proof.
  apply (rank_empty_query_source_order
           [Examples.file_recent; Examples.folder_recent]).
  repeat constructor; discriminate.
Defined.

(** X19. A preferred type never costs an entry its place: for a query
    without a space, an entry that is kept when no type is preferred is
    kept under every preference, with a score at least as high. *)
Theorem preference_never_lowers (prefer_type : option str) (query : str)
    (r : recent) (d : scored) :
  " "%char ∉ query →
  score_recent None query r = Ok (Some d) →
  ∃ d', score_recent prefer_type query r = Ok (Some d') ∧
        recent_ d' = r ∧ (score_ d <= score_ d')%Q.
Proof.
  intros Hsp. unfold score_recent.
  destruct (command_score_in_unit (label r) query Hsp) as (ls & -> & Hls).
  destruct (command_score_in_unit (uri r) query Hsp) as (us & -> & Hus).
  cbn [mbind outcome_bind]. simpl preferred. cbv iota.
  set (ls' := if preferred prefer_type r then (ls * PREFER_BOOST)%Q else ls).
  assert (ls <= ls')%Q as Hboost.
  { unfold ls'. destruct (preferred prefer_type r); [|apply Qle_refl].
    unfold PREFER_BOOST. destruct Hls as [Hls _]. nra. }
  assert (∀ a b, Qgtb a b = false → (a <= b)%Q) as Hle.
  { intros a b H. apply not_true_iff_false in H. rewrite Qgtb_true in H.
    by apply Qnot_lt_le. }
  destruct (Qgtb ls THRESHOLD || Qgtb us THRESHOLD) eqn:Hk; [|done].
  intros [= <-].
  assert (Qgtb ls' THRESHOLD || Qgtb us THRESHOLD = true) as ->.
  { apply orb_true_iff in Hk as [Hk|Hk]; apply orb_true_iff;
      [left | by right].
    apply Qgtb_true. apply Qgtb_true in Hk. by apply Qlt_le_trans with ls. }
  eexists. split; [done|]. split; [done|]. simpl. unfold max.
  destruct (Qgtb us ls) eqn:H1, (Qgtb us ls') eqn:H2;
    try apply Qgtb_true in H1; try apply Qgtb_true in H2;
    try apply Hle in H1; try apply Hle in H2; lra.
Qed.

Lemma preference_never_lowers_witness :
  ∃ d', score_recent (Some (s "folder")) (s "proj") Examples.folder_recent
        = Ok (Some d') ∧
        recent_ d' = Examples.folder_recent ∧ (1 <= score_ d')%Q.
Proof.
  apply (preference_never_lowers (Some (s "folder")) (s "proj")
           Examples.folder_recent
           {| recent_ := Examples.folder_recent; score_ := 1 |}).
  - intros H. apply list_elem_of_In in H. simpl in H.
    destruct H as [H|[H|[H|[H|[]]]]]; discriminate.
  - vm_compute. reflexivity.
Defined.

(** ** The scorer and subsequences *)

(** The rest of the needle from [ai] on is a subsequence of the rest of
    the hay from [si] on exactly when its first character occurs at some
    [i] at or after [si], with the rest after it a subsequence of the rest
    after [i]. *)
Lemma reach_step (needle hay : str) (si ai : Z) (c : ascii) :
  (0 ≤ si)%Z → (0 ≤ ai)%Z → needle !! Z.to_nat ai = Some c →
  reach needle hay si ai ↔
  ∃ i : nat, (si ≤ Z.of_nat i)%Z ∧ hay !! i = Some c ∧
             reach needle hay (Z.of_nat i + 1) (ai + 1).
Proof.
  intros Hsi Hai Hc. unfold reach.
  rewrite (drop_S _ _ _ Hc).
  replace (Z.to_nat (ai + 1)) with (S (Z.to_nat ai)) by lia.
  rewrite sublist_cons_l. split.
  - intros (k1 & k2 & Hk & Hsub).
    exists (Z.to_nat si + length k1)%nat.
    assert (hay !! (Z.to_nat si + length k1)%nat = Some c) as Hi.
    { rewrite <- lookup_drop, Hk. apply list_lookup_middle. done. }
    split; [lia|]. split; [done|].
    replace (Z.to_nat (Z.of_nat (Z.to_nat si + length k1) + 1))
      with (Z.to_nat si + S (length k1))%nat by lia.
    rewrite <- drop_drop, Hk.
    replace (drop (S (length k1)) (k1 ++ c :: k2)) with k2; [done|].
    clear. induction k1 as [|x k1 IH]; [done|]. exact IH.
  - intros (i & Hi & Hic & Hsub).
    replace (Z.to_nat (Z.of_nat i + 1)) with (S i) in Hsub by lia.
    exists (take (i - Z.to_nat si) (drop (Z.to_nat si) hay)),
           (drop (S i) hay).
    split; [|done].
    rewrite <- (drop_S _ _ _ Hic).
    replace (drop i hay)
      with (drop (i - Z.to_nat si) (drop (Z.to_nat si) hay)).
    + by rewrite take_drop.
    + rewrite drop_drop. f_equal. lia.
Qed.

Lemma Qmult_sign (x y : Q) :
  (0 <= x)%Q → (0 < y)%Q → (0 <= x * y)%Q ∧ (0 < x * y ↔ 0 < x)%Q.
Proof.
  intros Hx Hy. split; [nra|]. split; intros H.
  - destruct (Qlt_le_dec 0 x) as [|Hle]; [done|]. nra.
  - nra.
Qed.

Section signs.
Variables (string abbreviation : str) (aliases : list str).

(** The factors of lines 73-89 are positive: they keep a score
    non-negative, and positive when it is. *)
Lemma jump_sign (si index : Z) (t : Q) :
  (0 <= t)%Q → (0 ≤ si ≤ index)%Z →
  (index < len (Scorer.lower_string string aliases))%Z →
  ∃ t', jump string aliases si index t = Ok t' ∧
        (0 <= t')%Q ∧ (0 < t' ↔ 0 < t)%Q.
Proof.
  intros Ht Hsi Hlt. unfold jump.
  destruct (Z.eqb_spec index si) as [|Hne].
  { eexists. split; [done|]. by apply Qmult_sign. }
  destruct (getitem_in_range (Scorer.lower_string string aliases)
              (index - 1)) as (b & -> & _); [lia|].
  cbn [mbind outcome_bind].
  destruct (IS_SPACE b); [eexists; split; [done|]; by apply Qmult_sign|].
  destruct (IS_GAP b); [eexists; split; [done|]; by apply Qmult_sign|].
  destruct (Qmult_sign t SCORE_CHARACTER_JUMP) as [H0 Hiff]; [done..|].
  destruct (si >? 0)%Z; eexists; (split; [done|]); [|done].
  destruct (Qmult_sign (t * SCORE_CHARACTER_JUMP)
              (PENALTY_SKIPPED ^ (index - si))) as [H0' Hiff'];
    [done | by apply Qpower_0_lt |].
  split; [done|]. by rewrite Hiff'.
Qed.

Lemma case_penalty_sign (index ai : Z) (t : Q) :
  (0 <= t)%Q → (0 ≤ index < len string)%Z → (0 ≤ ai < len abbreviation)%Z →
  ∃ t', case_penalty string abbreviation index ai t = Ok t' ∧
        (0 <= t')%Q ∧ (0 < t' ↔ 0 < t)%Q.
Proof.
  intros Ht Hidx Hai. unfold case_penalty.
  destruct (getitem_in_range string index) as (c & -> & _); [done|].
  destruct (getitem_in_range abbreviation ai) as (a & -> & _); [done|].
  cbn [mbind outcome_bind].
  destruct (decide (c ≠ a)); eexists; (split; [done|]); [|done].
  by apply Qmult_sign.
Qed.
End signs.

(** Without aliases, a character other than the space is found in
    [lower_string] exactly where it is in the lowered string. *)
Lemma searched_lookup (string : str) (i : nat) (c : ascii) :
  c ≠ " "%char →
  Scorer.lower_string string [] !! i = Some c ↔ lower string !! i = Some c.
Proof.
  intros Hc. rewrite lower_string_eq. simpl join.
  destruct (decide (i < length (lower string))%nat) as [Hlt|Hge].
  - by rewrite lookup_app_l.
  - rewrite lookup_app_r by lia. rewrite (lookup_ge_None_2 (lower string))
      by lia.
    destruct (i - length (lower string))%nat as [|n]; simpl; [|done].
    split; [by intros [= <-] | done].
Qed.

Lemma reach_end (needle hay : str) (si : Z) :
  reach needle hay si (len needle).
Proof.
  unfold reach, len. rewrite Nat2Z.id, drop_all. apply sublist_nil_l.
Qed.

Lemma reach_start (needle hay : str) :
  reach needle hay 0 0 ↔ needle `sublist_of` hay.
Proof. done. Qed.

Lemma memo_positive_empty (string abbreviation : str) :
  memo_positive string abbreviation ∅.
Proof. intros si ai v Hv. by rewrite lookup_empty in Hv. Qed.

Lemma memo_positive_insert (string abbreviation : str) (memo : memo_t)
    (si ai : Z) (v : Q) :
  memo_positive string abbreviation memo → (0 <= v)%Q →
  (0 < v ↔ reach (lower abbreviation) (lower string) si ai)%Q →
  memo_positive string abbreviation (<[(si, ai) := v]> memo).
Proof.
  intros Hmemo Hv Hiff si' ai' v'.
  destruct (decide ((si, ai) = (si', ai'))) as [[= <- <-]|Hne].
  - rewrite lookup_insert_eq. by intros [= <-].
  - rewrite lookup_insert_ne by done. apply Hmemo.
Qed.

Lemma Qgtb_sign (t high : Q) :
  (0 <= t)%Q → (0 <= high)%Q →
  (0 <= (if Qgtb t high then t else high))%Q ∧
  (0 < (if Qgtb t high then t else high) ↔ 0 < high ∨ 0 < t)%Q.
Proof.
  intros Ht Hh. destruct (Qgtb t high) eqn:Hgt.
  - apply Qgtb_true in Hgt. split; [done|]. split; [by right|].
    intros [H|H]; [by apply Qlt_trans with high | done].
  - apply not_true_iff_false in Hgt. rewrite Qgtb_true in Hgt.
    apply Qnot_lt_le in Hgt. split; [done|]. split; [by left|].
    intros [H|H]; [done | by apply Qlt_le_trans with t].
Qed.

Section positive.
Variables (string abbreviation : str).
Hypothesis abbreviation_without_space : " "%char ∉ abbreviation.

#[local] Abbreviation searched := (Scorer.lower_string string []).
#[local] Abbreviation follows i ai :=
  (reach (lower abbreviation) (lower string) i ai).

(** The loop returns a positive best score exactly when it started
    from one, or when after some occurrence of the character at or after
    [start] the rest of the query is a subsequence of the rest of the
    string. *)
Lemma while_index_positive rec si ai a k start high memo :
  abbreviation !! Z.to_nat ai = Some a → (0 ≤ ai)%Z → (0 ≤ si ≤ start)%Z →
  (∀ i m, (0 ≤ i)%Z → memo_positive string abbreviation m →
     ∃ v m', rec i (ai + 1)%Z m = Ok (v, m') ∧ (0 <= v)%Q ∧
             (0 < v ↔ follows i (ai + 1))%Q ∧
             memo_positive string abbreviation m') →
  memo_positive string abbreviation memo → (0 <= high)%Q →
  (len searched - start ≤ Z.of_nat k)%Z →
  ∃ v memo',
    while_index string abbreviation [] rec si ai (lower_char a) k
      (find searched (lower_char a) start) high memo = Ok (v, memo') ∧
    (0 <= v)%Q ∧ memo_positive string abbreviation memo' ∧
    (0 < v ↔ 0 < high ∨
       ∃ i : nat, (start ≤ Z.of_nat i)%Z ∧
                  lower string !! i = Some (lower_char a) ∧
                  follows (Z.of_nat i + 1) (ai + 1))%Q.
Proof.
  intros Ha Hai Hsi Hrec. revert start high memo Hsi.
  assert (a ∈ abbreviation) as Hin by (by eapply list_elem_of_lookup_2).
  assert (lower_char a ≠ " "%char) as Hns.
  { intros Hsp. apply (proj1 (lower_char_space a)) in Hsp. by subst a. }
  assert (ai < len abbreviation)%Z as Hai'.
  { apply lookup_lt_Some in Ha. unfold len. lia. }
  pose proof (len_lower_string string []) as Hlen.
  induction k as [|k IH]; intros start high memo Hsi Hmemo Hhigh Hk;
    destruct (find_spec searched (lower_char a) start)
      as [[Hnone Hno]|(Hr & Hc & Hmin)]; try lia.
  - rewrite Hnone. exists high, memo. repeat (split; [done|]).
    split; [by left|]. intros [H|(i & Hi & Hic & _)]; [done|].
    exfalso. apply (Hno (Z.of_nat i)); [lia|].
    rewrite Nat2Z.id. by apply searched_lookup.
  - rewrite Hnone, while_index_done. exists high, memo.
    repeat (split; [done|]).
    split; [by left|]. intros [H|(i & Hi & Hic & _)]; [done|].
    exfalso. apply (Hno (Z.of_nat i)); [lia|].
    rewrite Nat2Z.id. by apply searched_lookup.
  - set (index := find searched (lower_char a) start) in *.
    pose proof (match_inside string abbreviation abbreviation_without_space
                  index a ltac:(lia) Hin Hc) as Hinside.
    rewrite while_index_step by lia.
    destruct (Hrec (index + 1)%Z memo) as (t & m & -> & Ht & Hiff & Hm);
      [lia|done|].
    cbn [mbind outcome_bind].
    destruct (jump_sign string [] si index t) as (t1 & -> & Ht1 & Hiff1);
      [done|lia|lia|].
    cbn [mbind outcome_bind].
    destruct (case_penalty_sign string abbreviation index ai t1)
      as (t2 & -> & Ht2 & Hiff2); [done|lia|lia|].
    cbn [mbind outcome_bind].
    destruct (Qgtb_sign t2 high Ht2 Hhigh) as [Hh' Hiffh].
    destruct (IH (index + 1)%Z (if Qgtb t2 high then t2 else high) m)
      as (v & memo' & -> & Hv & Hmemo' & Hiffv); [lia|done|done|lia|].
    exists v, memo'. repeat (split; [done|]).
    rewrite Hiffv, Hiffh, Hiff2, Hiff1, Hiff. split.
    + intros [[H|H]|(i & Hi & Hic & Hto)]; [by left| |].
      * right. exists (Z.to_nat index). rewrite Z2Nat.id by lia.
        split; [lia|]. split; [|done]. by apply searched_lookup.
      * right. exists i. split; [lia|]. by split.
    + intros [H|(i & Hi & Hic & Hto)]; [by left; left|].
      destruct (Z.lt_trichotomy (Z.of_nat i) index) as [Hlt|[Heq|Hgt]].
      * exfalso. apply (Hmin (Z.of_nat i)); [lia|].
        rewrite Nat2Z.id. by apply searched_lookup.
      * left. right. by rewrite <- Heq.
      * right. exists i. split; [lia|]. by split.
Qed.

(** [score] returns a non-negative score, positive exactly when the rest
    of the lowered query is a subsequence of the rest of the lowered
    string. *)
Lemma score_positive (fuel : nat) (si ai : Z) (memo : memo_t) :
  (0 ≤ si)%Z → (0 ≤ ai ≤ len abbreviation)%Z →
  (len abbreviation - ai < Z.of_nat fuel)%Z →
  memo_positive string abbreviation memo →
  ∃ v memo',
    score string abbreviation [] fuel si ai memo = Ok (v, memo') ∧
    (0 <= v)%Q ∧ (0 < v ↔ follows si ai)%Q ∧
    memo_positive string abbreviation memo'.
Proof.
  revert si ai memo.
  induction fuel as [|fuel IH]; intros si ai memo Hsi Hai Hfuel Hmemo; [lia|].
  destruct (memo !! (si, ai)) as [v|] eqn:Hhit.
  { exists v, memo. simpl. rewrite Hhit. split; [done|].
    destruct (Hmemo si ai v Hhit) as [? ?]; [lia..|].
    split; [done|]. by split. }
  destruct (Z.eq_dec ai (len abbreviation)) as [->|Hne].
  { simpl. rewrite Hhit, Z.eqb_refl. eexists _, memo. split; [done|].
    assert (follows si (len abbreviation)) as Hend.
    { rewrite <- (len_lower abbreviation). apply reach_end. }
    split; [|split; [|done]].
    - by destruct (si =? len string)%Z; vm_compute.
    - split; [done|]. intros _. by destruct (si =? len string)%Z; vm_compute. }
  rewrite score_step by done.
  destruct (getitem_in_range abbreviation ai) as (a & _ & Ha); [lia|].
  assert (lower abbreviation !! Z.to_nat ai = Some (lower_char a)) as Hla.
  { unfold lower. by rewrite list_lookup_fmap, Ha. }
  assert (getitem (lower_abbreviation abbreviation) ai = Ok (lower_char a))
    as -> by (by apply getitem_Ok; [lia|]).
  cbn [mbind outcome_bind].
  destruct (while_index_positive (score string abbreviation [] fuel)
              si ai a (length searched) si 0%Q memo)
    as (v & memo' & -> & Hv & Hmemo' & Hiff);
    [done | lia | lia | | done | done | unfold len; lia |].
  { intros i m Hi Hm. apply IH; [lia..|done]. }
  cbn [mbind outcome_bind].
  assert (0 < v ↔ follows si ai)%Q as Hto.
  { rewrite Hiff, (reach_step _ _ si ai (lower_char a)) by (lia || done).
    split; [by intros [?|?] | by right]. }
  exists v, (<[(si, ai) := v]> memo'). repeat (split; [done|]).
  by apply memo_positive_insert.
Qed.
End positive.





Section spaced.
Variables (string pre post : str).
Hypothesis pre_without_space : " "%char ∉ pre.

#[local] Abbreviation abbreviation := (pre ++ " "%char :: post).
#[local] Abbreviation searched := (Scorer.lower_string string []).
#[local] Abbreviation follows i ai :=
  (reach (lower pre) (lower string) i ai).



End spaced.




(** ** The ranker and subsequences *)

(** An entry kept for a query without a space has the lowered query as a
    subsequence of its lowered label or URI. *)
Lemma score_recent_kept_subsequence (prefer_type : option str)
    (query : str) (r : recent) (d : scored) :
  " "%char ∉ query → score_recent prefer_type query r = Ok (Some d) →
  lower query `sublist_of` lower (label r) ∨
  lower query `sublist_of` lower (uri r).
Proof.
  intros Hsp. unfold score_recent, command_score. simpl default.
  destruct (score_positive (label r) query Hsp (S (length query)) 0 0 ∅)
    as (ls & ml & -> & Hls & Hiffl & _);
    [unfold len; lia..|apply memo_positive_empty|].
  destruct (score_positive (uri r) query Hsp (S (length query)) 0 0 ∅)
    as (us & mu & -> & Hus & Hiffu & _);
    [unfold len; lia..|apply memo_positive_empty|].
  cbn [mbind outcome_bind].
  set (ls' := if preferred prefer_type r then (ls * PREFER_BOOST)%Q else ls).
  assert (0 < THRESHOLD)%Q as Hth by (by vm_compute).
  destruct (Qgtb ls' THRESHOLD) eqn:Hl; simpl.
  - intros _. left. apply Hiffl. apply Qgtb_true in Hl.
    assert (0 < ls')%Q as Hpos by (by apply Qlt_trans with THRESHOLD).
    unfold ls' in Hpos. destruct (preferred prefer_type r); [|done].
    assert (0 < PREFER_BOOST)%Q as Hb by (by vm_compute).
    by apply (Qmult_sign ls PREFER_BOOST Hls Hb).
  - destruct (Qgtb us THRESHOLD) eqn:Hu; [|done].
    intros _. right. apply Hiffu. apply Qgtb_true in Hu.
    by apply Qlt_trans with THRESHOLD.
Qed.

(** X22. For a query without a space, every element the ranker returns
    has the lowered query as a subsequence of its lowered label or of its
    lowered URI: an entry in which the characters of the query do not
    occur in order is never shown. *)
Theorem rank_keeps_subsequence_matches (prefer_type : option str)
    (query : str) (recents : list recent) (out : list scored) :
  " "%char ∉ query → rank prefer_type query recents = Ok out →
  Forall (λ d, lower query `sublist_of` lower (label (recent_ d)) ∨
               lower query `sublist_of` lower (uri (recent_ d))) out.
Proof.
  intros Hsp. unfold rank.
  destruct (score_recents prefer_type query recents []) as [data| |] eqn:Hdata;
    cbn [mbind outcome_bind]; [|done..].
  intros [= <-]. apply Forall_take.
  rewrite sorted_reverse_Permutation.
  eapply score_recents_Forall; [|done].
  intros r d Hr Hd. pose proof (score_recent_kept _ _ _ _ Hd) as [-> _].
  by eapply score_recent_kept_subsequence.
Qed.

Lemma rank_keeps_subsequence_matches_witness :
  (" "%char ∉ s "o") ∧
  Forall (λ d, lower (s "o") `sublist_of` lower (label (recent_ d)) ∨
               lower (s "o") `sublist_of` lower (uri (recent_ d)))
    Examples.ranked.
Proof.
  assert (" "%char ∉ s "o") as Hsp.
  { apply not_elem_of_cons. split; [discriminate|]. apply not_elem_of_nil. }
  split; [exact Hsp|].
  apply (rank_keeps_subsequence_matches None (s "o")
           [Examples.folder_recent; Examples.file_recent]); [exact Hsp|].
  vm_compute. reflexivity.
Defined.




